(** * gpk: specifier expansion, tag matching and the install orchestrator

    A shallow embedding of [lib/gpk.js]: [expandSrc] with its [findVersion]
    (lines 31-102), [matchTag] (104-128), [locatePkg] (130-155) and [install]
    (183-277).  [install] is cut along its blocks: the merge of the
    development dependencies (199-204), a round of the loop over the
    dependencies (206-258) with its probe of the flat path (213-219) and its
    loop over the candidate hosts (233-257), the recursive calls (261-262)
    and the native build (265-276).  [run] (157-171) follows the
    installer.

    Conventions of the embedding.
    - A JavaScript string is a Rocq [string], one character per UTF-16 code
      unit; this covers the strings whose code units are below 256.  The
      line terminators a regular expression's [.] refuses are then LF and
      CR (U+2028 and U+2029 lie outside the range).
    - A value that may be [undefined], [null] or a string is a [jstr]; the
      two empty values are kept apart because [!==] tells them apart.
    - A plain object (the result of [JSON.parse]) is the list of its own
      enumerable properties in enumeration order, and a property read also
      sees the members every object inherits from [Object.prototype].
    - Property values follow the manifest schema: dependency specifiers are
      strings and the elements of a remotes list are strings.
    - [semver.satisfies], [path.join], [path.resolve], [JSON.parse], the file
      system and the git collaborators of [lib/git.js] are parameters;
      [path.isAbsolute] is the POSIX one.
    - The state of the file system and of the remote hosts is a world [W]
      threaded through the calls, and every call of a collaborator leaves an
      event.  The recursion of [install] is bounded by a budget. *)

From Stdlib Require Import String Ascii List Bool ZArith.
From Stdlib Require Import Permutation Sorted OrdersEx RelationClasses.
Import ListNotations.
Local Open Scope list_scope.
Local Open Scope string_scope.

Set Implicit Arguments.

(** ** JavaScript values used by the module *)

Inductive jstr : Type :=
| undefined
| null
| str (s : string).

(** [!x] for such a value: the two empty values and the empty string. *)
Definition falsy (x : jstr) : bool :=
  match x with
  | str s => (s =? "")
  | _ => true
  end.

(** [a !== b] *)
Definition strict_neq (a b : jstr) : bool :=
  match a, b with
  | undefined, undefined => false
  | null, null => false
  | str s, str t => negb (s =? t)
  | _, _ => true
  end.

(** What a JSON document can hold under a key of [remotes].  Of a number
    only its being zero or not is looked at, so an integer stands for it. *)
Inductive json : Type :=
| JNull
| JBool (b : bool)
| JNum (n : Z)
| JStr (s : string)
| JArr (items : list string)
| JObj.

Definition truthy (v : json) : bool :=
  match v with
  | JNull => false
  | JBool b => b
  | JNum n => negb (n =? 0)%Z
  | JStr s => negb (s =? "")
  | JArr _ => true
  | JObj => true
  end.

(** [Array.isArray] *)
Definition isArray (v : json) : option (list string) :=
  match v with
  | JArr l => Some l
  | _ => None
  end.

(** Exceptions.  [Error msg] is [new Error(msg)]; [TypeError] is the
    engine's own error for a property read on [undefined]; [SyntaxError] is
    the one of [JSON.parse]; [Rejected] is a rejection coming from a
    collaborator (file system, git, node-gyp), with its [code] and
    [message]. *)
Record rejection : Type := {
  code : jstr;
  message : string
}.

Inductive exn : Type :=
| TypeError
| SyntaxError
| Error (msg : string)
| Rejected (r : rejection).

Inductive completion (A : Type) : Type :=
| Normal (a : A)
| Throw (e : exn).
Arguments Throw {A} e.

(** ** Strings *)

Module Str.

(** [s.indexOf(p) === 0] *)
Fixpoint startsWith (p s : string) : bool :=
  match p, s with
  | EmptyString, _ => true
  | String _ _, EmptyString => false
  | String a p', String b s' => Ascii.eqb a b && startsWith p' s'
  end.

Fixpoint drop (n : nat) (s : string) : string :=
  match n, s with
  | O, _ => s
  | S k, String _ t => drop k t
  | S _, EmptyString => EmptyString
  end.

(** [s.replace(pat, '')] for a string pattern: the first occurrence of
    [pat] is removed, and [s] is returned as it is when there is none. *)
Fixpoint remove_first (pat s : string) : string :=
  if startsWith pat s then drop (String.length pat) s
  else match s with
       | EmptyString => EmptyString
       | String c t => String c (remove_first pat t)
       end.

(** [s.split(sep)] for a one-character separator, as the first piece and
    the pieces after it. *)
Fixpoint split (sep : ascii) (s : string) : string * list string :=
  match s with
  | EmptyString => (EmptyString, [])
  | String c t =>
      let '(h, r) := split sep t in
      if Ascii.eqb c sep then (EmptyString, h :: r) else (String c h, r)
  end.

(** [let [a, b] = s.split(sep)] *)
Definition split2 (sep : ascii) (s : string) : string * jstr :=
  let '(h, r) := split sep s in
  (h, match r with [] => undefined | x :: _ => str x end).

Definition line_terminator (c : ascii) : bool :=
  Ascii.eqb c "010"%char || Ascii.eqb c "013"%char.

(** What a greedy dot-star group takes from the front of [s]. *)
Fixpoint dot_star (s : string) : string :=
  match s with
  | EmptyString => EmptyString
  | String c t => if line_terminator c then EmptyString else String c (dot_star t)
  end.

Fixpoint single_line (s : string) : bool :=
  match s with
  | EmptyString => true
  | String c t => negb (line_terminator c) && single_line t
  end.

(** [src.split(re, 2)] where [re] is a colon followed by a dot-star
    group: with no colon the array is [[src]]; else it is the text before
    the first colon and the capture, the array being cut at two items. *)
Fixpoint split_colon (s : string) : option (string * string) :=
  match s with
  | EmptyString => None
  | String c t =>
      if Ascii.eqb c ":"%char then Some (EmptyString, dot_star t)
      else match split_colon t with
           | Some (a, b) => Some (String c a, b)
           | None => None
           end
  end.

End Str.

(** ** Objects *)

Module Obj.

Definition t (V : Type) := list (string * V).

(** The property names of [Object.prototype]. *)
Definition prototype : list string :=
  [ "constructor"; "__defineGetter__"; "__defineSetter__"; "hasOwnProperty";
    "__lookupGetter__"; "__lookupSetter__"; "isPrototypeOf";
    "propertyIsEnumerable"; "toString"; "valueOf"; "__proto__";
    "toLocaleString" ].

Definition inherited (k : string) : bool :=
  existsb (String.eqb k) prototype.

Fixpoint own {V} (o : t V) (k : string) : option V :=
  match o with
  | [] => None
  | (k', v) :: rest => if k' =? k then Some v else own rest k
  end.

(** The outcome of [o[k]]. *)
Inductive prop (V : Type) : Type :=
| Own (v : V)
| Inherited
| Missing.
Arguments Inherited {V}.
Arguments Missing {V}.

Definition get {V} (o : t V) (k : string) : prop V :=
  match own o k with
  | Some v => Own v
  | None => if inherited k then Inherited else Missing
  end.

Definition keys {V} (o : t V) : list string := map fst o.

(** A canonical array index: ["0"], or digits with no leading zero, below
    [2^32 - 1].  Such keys are enumerated first, in numeric order. *)
Definition digit (c : ascii) : option N :=
  let n := N_of_ascii c in
  if ((48 <=? n) && (n <=? 57))%N then Some (n - 48)%N else None.

Fixpoint digits (acc : N) (s : string) : option N :=
  match s with
  | EmptyString => Some acc
  | String c t =>
      match digit c with
      | Some d => digits (acc * 10 + d)%N t
      | None => None
      end
  end.

Definition array_index (k : string) : option N :=
  match k with
  | EmptyString => None
  | String c t =>
      if Ascii.eqb c "0"%char && negb (t =? "") then None
      else match digits 0%N k with
           | Some n => if (n <? 4294967295)%N then Some n else None
           | None => None
           end
  end.

(** Where a new property lands in the enumeration order. *)
Fixpoint place {V} (n : option N) (k : string) (v : V) (o : t V) : t V :=
  match o with
  | [] => [(k, v)]
  | (k', v') :: rest =>
      match n, array_index k' with
      | Some i, Some j =>
          if (i <? j)%N then (k, v) :: o else (k', v') :: place n k v rest
      | Some _, None => (k, v) :: o
      | None, _ => (k', v') :: place n k v rest
      end
  end.

Fixpoint replace {V} (k : string) (v : V) (o : t V) : t V :=
  match o with
  | [] => []
  | (k', v') :: rest =>
      if k' =? k then (k', v) :: rest else (k', v') :: replace k v rest
  end.

(** [o[k] = v] for a key that is an own data property of [o], or that [o]
    neither has nor inherits. *)
Definition set {V} (k : string) (v : V) (o : t V) : t V :=
  match own o k with
  | Some _ => replace k v o
  | None => place (array_index k) k v o
  end.

End Obj.

(** ** The specifier expander *)

Record specifier : Type := {
  git : list string;
  version : jstr;
  branch : jstr
}.

Definition findVersion (branch : jstr) : jstr * jstr :=
  let version :=
    if falsy branch then null
    else match branch with
         | str b => str (Str.remove_first "semver:" b)
         | _ => null
         end in
  if strict_neq version branch then (null, version) else (branch, null).

(** [src.match(re)] for the anchored pattern "git+ssh://", "git+https://" or
    "git://" followed by a dot-star group up to the end of input: the groups
    1, 2 and 3 of the match. *)
Definition match_git (src : string) : option (string * jstr * string) :=
  let try (m1 : string) (m2 : jstr) :=
    let rest := Str.drop (String.length m1) src in
    if Str.single_line rest then Some (m1, m2, rest) else None in
  if Str.startsWith "git+ssh://" src then try "git+ssh://" (str "ssh://")
  else if Str.startsWith "git+https://" src then try "git+https://" (str "https://")
  else if Str.startsWith "git://" src then try "git://" undefined
  else None.

(** [path.isAbsolute] of the POSIX flavour. *)
Definition isAbsolute (p : string) : bool := Str.startsWith "/" p.

Section Expand.

Variable path_resolve : string -> string -> string.

Definition candidate (root repo host : string) : string :=
  if Str.startsWith "file:" host then
    let dir := Str.remove_first "file:" host in
    let dir := if isAbsolute dir then dir else path_resolve root dir in
    dir ++ "/" ++ repo ++ "/.git"
  else host ++ "/" ++ repo ++ ".git".

Definition expandSrc (root : string) (remotes : option (Obj.t json))
    (name src : string) : completion specifier :=
  match match_git src with
  | Some (m1, m2, m3) =>
      let url := match m2 with
                 | str p => if p =? "" then m1 ++ m3 else p ++ m3
                 | _ => m1 ++ m3
                 end in
      let '(host, extra) := Str.split2 "#" url in
      let '(branch, version) := findVersion extra in
      Normal {| git := [host]; version := version; branch := branch |}
  | None =>
      match remotes with
      | None => Normal {| git := []; version := str src; branch := null |}
      | Some remotes =>
          match Str.split_colon src with
          | None => Throw TypeError
          | Some (remote, id) =>
              let '(repo, extra) := Str.split2 "#" id in
              let '(branch, version) := findVersion extra in
              let repo := if repo =? "" then name else repo in
              match Obj.get remotes remote with
              | Obj.Missing =>
                  Throw (Error ("Unknown remote " ++ remote ++ "."))
              | Obj.Inherited =>
                  Throw (Error "Remotes expected to be an array.")
              | Obj.Own hosts =>
                  if negb (truthy hosts) then
                    Throw (Error ("Unknown remote " ++ remote ++ "."))
                  else match isArray hosts with
                       | None => Throw (Error "Remotes expected to be an array.")
                       | Some hosts =>
                           Normal {| git := map (candidate root repo) hosts;
                                     version := version; branch := branch |}
                       end
              end
          end
      end
  end.

End Expand.

(** ** The tag matcher *)

(** The comparison function handed to [sort]; [==] and [<] on strings are
    equality and the order of the code units. *)
Definition compareFn (a b : string) : Z :=
  if a =? b then 0%Z else if (a <? b) then 1%Z else (-1)%Z.

(** [Array.prototype.sort(cmp)]: a stable sort; [x] goes before [y] when
    [cmp x y] is not positive. *)
Fixpoint insert (cmp : string -> string -> Z) (x : string) (l : list string)
  : list string :=
  match l with
  | [] => [x]
  | y :: t => if (cmp x y <=? 0)%Z then x :: l else y :: insert cmp x t
  end.

Fixpoint sort (cmp : string -> string -> Z) (l : list string) : list string :=
  match l with
  | [] => []
  | x :: t => insert cmp x (sort cmp t)
  end.

Section Match.

(** [semver.satisfies(version, range)] *)
Variable satisfies : jstr -> jstr -> bool.

(** The [for ... of] loop with its [break]. *)
Fixpoint scan (sorted : list string) (needed : jstr) : jstr :=
  match sorted with
  | [] => null
  | tag :: rest =>
      let version := Str.remove_first "v" tag in
      if satisfies (str version) needed then str tag else scan rest needed
  end.

Definition matchTag (tags : list string) (needed : jstr) : jstr :=
  let filtered := filter (Str.startsWith "v") tags in
  let sorted := sort compareFn filtered in
  scan sorted needed.

End Match.

(** ** Manifests and tag records *)

Module Pkg.
Record t : Type := {
  version : jstr;
  dependencies : option (Obj.t string);
  devDependencies : option (Obj.t string);
  remotes : option (Obj.t json)
}.
End Pkg.

(** The result of [JSON.parse] on the text of a manifest: a syntax error, a
    falsy value, or a value read as a manifest (a field that is absent or
    falsy is [None]). *)
Inductive parsed : Type :=
| ParseError
| Falsy
| Value (pkg : Pkg.t).

Record tag_info : Type := {
  annotated : bool;
  commit : string
}.

Record options : Type := {
  production : bool
}.

(** ** Collaborators, events and the monad of the orchestrator *)

Inductive event : Type :=
| ReadFile (path : string)
| ListTags (url : string)
| CloneRepo (tag url dst : string) (result : rejection + bool)
| VerifyRepo (tag commit : jstr) (dst : string) (result : rejection + bool)
| Access (path : string)
| Rebuild (dir : string).

Record collaborators (W : Type) : Type := {
  readFile : string -> W -> (rejection + string) * W;
  JSON_parse : string -> parsed;
  listTags : string -> W -> (rejection + Obj.t tag_info) * W;
  cloneRepo : string -> string -> string -> W -> (rejection + bool) * W;
  verifyRepo : jstr -> jstr -> string -> W -> (rejection + bool) * W;
  access : string -> W -> (rejection + unit) * W;
  rebuild : string -> W -> (rejection + unit) * W;
  satisfies : jstr -> jstr -> bool;
  path_join : string -> string -> string;
  path_resolve : string -> string -> string
}.

(** How a computation ends: [Pending] is a call whose recursion budget ran
    out, which no JavaScript run shows. *)
Inductive status (A : Type) : Type :=
| Returned (a : A)
| Threw (e : exn)
| Pending.
Arguments Threw {A} e.
Arguments Pending {A}.

Record outcome (W A : Type) : Type := {
  result : status A;
  world : W;
  events : list event
}.

Definition M (W A : Type) : Type := W -> outcome W A.

Definition ret {W A} (a : A) : M W A :=
  fun w => {| result := Returned a; world := w; events := [] |}.

Definition throw {W A} (e : exn) : M W A :=
  fun w => {| result := Threw e; world := w; events := [] |}.

Definition pending {W A} : M W A :=
  fun w => {| result := Pending; world := w; events := [] |}.

Definition bind {W A B} (m : M W A) (f : A -> M W B) : M W B :=
  fun w =>
    let o := m w in
    match result o with
    | Returned a =>
        let o' := f a (world o) in
        {| result := result o'; world := world o';
           events := (events o ++ events o')%list |}
    | Threw e => {| result := Threw e; world := world o; events := events o |}
    | Pending => {| result := Pending; world := world o; events := events o |}
    end.

Notation "x <- m ;; k" := (bind m (fun x => k))
  (at level 61, m at next level, right associativity).

(** An awaited call of a collaborator, with the event it leaves; the
    rejection, if any, is handed to the caller's [catch]. *)
Definition await {W A} (ev : rejection + A -> event)
    (op : W -> (rejection + A) * W) : M W (rejection + A) :=
  fun w =>
    let '(r, w') := op w in
    {| result := Returned r; world := w'; events := [ev r] |}.

(** The same with no [catch] around it. *)
Definition await_ {W A} (ev : rejection + A -> event)
    (op : W -> (rejection + A) * W) : M W A :=
  r <- await ev op ;;
  match r with
  | inl e => throw (Rejected e)
  | inr a => ret a
  end.

Definition not_ENOENT (e : rejection) : bool :=
  strict_neq (code e) (str "ENOENT").

(** How a round of a loop ends. *)
Inductive control : Type :=
| Continue
| Break.

(** What [locatePkg] returns: [root] is [null] when the walk found nothing. *)
Inductive located : Type :=
| NotFound
| Found (root : string) (pkg : option Pkg.t).

(** ** The merge of the development dependencies *)

(** [!dependencies[name]] *)
Definition absent (dependencies : Obj.t string) (name : string) : bool :=
  match Obj.get dependencies name with
  | Obj.Own src => (src =? "")
  | Obj.Inherited => false
  | Obj.Missing => true
  end.

(** The loop over [Object.entries(pkg.devDependencies)]. *)
Definition merge (dependencies devDependencies : Obj.t string) : Obj.t string :=
  fold_left
    (fun deps '(name, src) =>
       if absent deps name then Obj.set name src deps else deps)
    devDependencies dependencies.

Section Install.

Context {W : Type}.
Variable C : collaborators W.

Definition parse_manifest (data : string) : M W (option Pkg.t) :=
  match JSON_parse C data with
  | ParseError => throw SyntaxError
  | Falsy => ret None
  | Value pkg => ret (Some pkg)
  end.

Fixpoint locatePkg (fuel : nat) (cwd : string) (walk : bool) : M W located :=
  match fuel with
  | O => pending
  | S fuel' =>
      r <- await (fun _ => ReadFile (path_join C cwd "./package.json"))
             (readFile C (path_join C cwd "./package.json")) ;;
      match r with
      | inr data =>
          if data =? "" then ret (Found cwd None)
          else pkg <- parse_manifest data ;; ret (Found cwd pkg)
      | inl err =>
          if not_ENOENT err then throw (Rejected err)
          else
            let parent := path_resolve C cwd "../" in
            if (parent =? cwd) || negb walk then ret NotFound
            else locatePkg fuel' parent walk
      end
  end.

(** The probe of the flat path: [existingPkg]. *)
Definition probe (dst : string) : M W (option Pkg.t) :=
  r <- await (fun _ => ReadFile (path_join C dst "./package.json"))
         (readFile C (path_join C dst "./package.json")) ;;
  match r with
  | inr data => parse_manifest data
  | inl err => if not_ENOENT err then throw (Rejected err) else ret None
  end.

(** The call of [verifyRepo] inside its [try]. *)
Definition verify (tag commit : jstr) (dst : string) : M W bool :=
  r <- await (VerifyRepo tag commit dst) (verifyRepo C tag commit dst) ;;
  match r with
  | inr success => ret success
  | inl err =>
      throw (Error ("Could not verify " ++ dst ++ ", reason: "
                      ++ message err ++ "."))
  end.

(** One round of the loop over the candidate hosts: [Break] when [dst] was
    pushed on [installed], [Continue] when the next host is to be tried. *)
Definition try_host (url : string) (version : jstr) (dst : string)
  : M W control :=
  tags <- await_ (fun _ => ListTags url) (listTags C url) ;;
  match matchTag (satisfies C) (Obj.keys tags) version with
  | str tag =>
      if tag =? "" then ret Continue
      else
        match Obj.get tags tag with
        | Obj.Missing => throw TypeError
        | found =>
            let '(annotated, commit) :=
              match found with
              | Obj.Own info => (annotated info, str (commit info))
              | _ => (false, undefined)
              end in
            _ <- await_ (CloneRepo tag url dst) (cloneRepo C tag url dst) ;;
            success <- (if annotated then verify (str tag) null dst
                        else verify null commit dst) ;;
            ret (if success then Break else Continue)
        end
  | _ => ret Continue
  end.

(** The loop over the candidate hosts; [true] when [dst] was pushed. *)
Fixpoint try_hosts (git : list string) (version : jstr) (dst : string)
  : M W bool :=
  match git with
  | [] => ret false
  | url :: rest =>
      c <- try_host url version dst ;;
      match c with
      | Break => ret true
      | Continue => try_hosts rest version dst
      end
  end.

Definition node_modules (dir name : string) : string :=
  path_join C dir ("./node_modules/" ++ name).

(** The end of a round of the loop over the dependencies, from the test
    of [git.length] on; [Some dst] when [dst] was pushed on [installed]. *)
Definition fetch (name : string) (spec : specifier) (dst : string)
  : M W (option string) :=
  match git spec with
  | [] => throw (Error ("Unknown remotes for '" ++ name ++ "'."))
  | _ =>
      pushed <- try_hosts (git spec) (version spec) dst ;;
      ret (if pushed then Some dst else None)
  end.

(** One round of the loop over the dependencies. *)
Definition install_dep (root prefix : string) (remotes : option (Obj.t json))
    (name src : string) : M W (option string) :=
  match expandSrc (path_resolve C) prefix remotes name src with
  | Throw e => throw e
  | Normal spec =>
      let flat := node_modules prefix name in
      existingPkg <- probe flat ;;
      match existingPkg with
      | Some existing =>
          if satisfies C (Pkg.version existing) (version spec) then ret None
          else fetch name spec (node_modules root name)
      | None => fetch name spec flat
      end
  end.

Fixpoint install_deps (root prefix : string) (remotes : option (Obj.t json))
    (entries : list (string * string)) (installed : list string)
  : M W (list string) :=
  match entries with
  | [] => ret installed
  | (name, src) :: rest =>
      r <- install_dep root prefix remotes name src ;;
      install_deps root prefix remotes rest
        (match r with
         | Some dst => (installed ++ [dst])%list
         | None => installed
         end)
  end.

(** The probe of [binding.gyp] and the rebuild. *)
Definition native (root : string) : M W unit :=
  let gyp := path_join C root "./binding.gyp" in
  r <- await (fun _ => Access gyp) (access C gyp) ;;
  match r with
  | inr _ => await_ (fun _ => Rebuild root) (rebuild C root)
  | inl err => if not_ENOENT err then throw (Rejected err) else ret tt
  end.

Fixpoint for_each {A} (f : A -> M W unit) (l : list A) : M W unit :=
  match l with
  | [] => ret tt
  | x :: rest => _ <- f x ;; for_each f rest
  end.

(** The body of [install]; [self] stands for the recursive calls, which
    pass no options. *)
Definition install_body (self : string -> jstr -> M W unit)
    (dst : string) (prefix : jstr) (opts : options) : M W unit :=
  loc <- locatePkg 1 dst false ;;
  match loc with
  | NotFound | Found _ None => throw (Error "Unknown package.")
  | Found root (Some pkg) =>
      let prefix := match prefix with str p => p | _ => root end in
      match Pkg.dependencies pkg with
      | None => ret tt
      | Some dependencies =>
          let dependencies :=
            match negb (production opts), Pkg.devDependencies pkg with
            | true, Some dev => merge dependencies dev
            | _, _ => dependencies
            end in
          installed <- install_deps root prefix (Pkg.remotes pkg)
                         dependencies [] ;;
          _ <- for_each (fun nextDst => self nextDst (str prefix)) installed ;;
          native root
      end
  end.

Fixpoint install (fuel : nat) (dst : string) (prefix : jstr) (opts : options)
  : M W unit :=
  match fuel with
  | O => pending
  | S fuel' =>
      install_body (fun d p => install fuel' d p {| production := false |})
        dst prefix opts
  end.

(** How a round over one host runs, case by case. *)
Inductive host_run (url : string) (version : jstr) (dst : string) (w : W)
  : outcome W control -> Prop :=
| listing_rejected e w1 :
    listTags C url w = (inl e, w1) ->
    host_run url version dst w
      {| result := Threw (Rejected e); world := w1; events := [ListTags url] |}
| no_tag tags w1 :
    listTags C url w = (inr tags, w1) ->
    matchTag (satisfies C) (Obj.keys tags) version = null ->
    host_run url version dst w
      {| result := Returned Continue; world := w1; events := [ListTags url] |}
| clone_rejected tags w1 tag e w2 :
    listTags C url w = (inr tags, w1) ->
    matchTag (satisfies C) (Obj.keys tags) version = str tag ->
    cloneRepo C tag url dst w1 = (inl e, w2) ->
    host_run url version dst w
      {| result := Threw (Rejected e); world := w2;
         events := [ListTags url; CloneRepo tag url dst (inl e)] |}
| verification tags w1 tag info c w2 r w3 :
    listTags C url w = (inr tags, w1) ->
    matchTag (satisfies C) (Obj.keys tags) version = str tag ->
    Obj.own tags tag = Some info ->
    cloneRepo C tag url dst w1 = (inr c, w2) ->
    verifyRepo C (if annotated info then str tag else null)
      (if annotated info then null else str (commit info)) dst w2 = (r, w3) ->
    host_run url version dst w
      {| result :=
           match r with
           | inr true => Returned Break
           | inr false => Returned Continue
           | inl e => Threw (Error ("Could not verify " ++ dst ++ ", reason: "
                                      ++ message e ++ "."))
           end;
         world := w3;
         events := [ListTags url; CloneRepo tag url dst (inr c);
                    VerifyRepo (if annotated info then str tag else null)
                      (if annotated info then null else str (commit info))
                      dst r] |}.

End Install.

(** ** Vocabulary of the statements *)

(** The errors of the specification, told apart by their messages. *)
Definition UnknownRemoteError (e : exn) : Prop :=
  exists remote, e = Error ("Unknown remote " ++ remote ++ ".").

Definition InvalidRemotesError (e : exn) : Prop :=
  e = Error "Remotes expected to be an array.".

Fixpoint contains (c : ascii) (s : string) : bool :=
  match s with
  | EmptyString => false
  | String c' t => Ascii.eqb c' c || contains c t
  end.

(** A tag with its leading character taken off. *)
Definition stripped (tag : string) : string := Str.drop 1 tag.

(** The tags of a list that come first to last in descending order of the
    strings. *)
Definition descending : list string -> Prop :=
  StronglySorted (fun a b => (b <=? a) = true).

(** The first tag of a list whose stripped value satisfies the range. *)
Definition first_satisfying (satisfies : jstr -> jstr -> bool)
    (needed : jstr) (l : list string) : jstr :=
  match find (fun tag => satisfies (str (stripped tag)) needed) l with
  | Some tag => str tag
  | None => null
  end.

(** Exactly one of [versionRange] and [branch] is set. *)
Definition exactly_one (r : specifier) : Prop :=
  (version r <> null /\ branch r = null) \/
  (version r = null /\ branch r <> null).

(** The paths whose verification returned [true], in the order of the
    calls. *)
Fixpoint verified (evs : list event) : list string :=
  match evs with
  | [] => []
  | VerifyRepo _ _ dst (inr true) :: rest => dst :: verified rest
  | _ :: rest => verified rest
  end.

(** The events a round over one host may leave when it aims at [dst]. *)
Definition aims_at (dst : string) (e : event) : Prop :=
  match e with
  | ListTags _ => True
  | CloneRepo _ _ d _ => d = dst
  | VerifyRepo _ _ d _ => d = dst
  | _ => False
  end.

(** An outcome with events put in front of its own. *)
Definition after {W A} (evs : list event) (o : outcome W A) : outcome W A :=
  {| result := result o; world := world o; events := (evs ++ events o)%list |}.

(** ** A small world to run the orchestrator in *)

Module Demo.

(** The files, and the answers the next verifications will give. *)
Record world : Type := {
  files : list (string * string);
  verdicts : list bool
}.

(** What the world is made of: the manifests behind the file contents,
    the tags of the hosts, and what a clone reports. *)
Record setting : Type := {
  manifests : list (string * Pkg.t);
  hosts : list (string * Obj.t tag_info);
  clone_reports : bool
}.

Definition ENOENT : rejection :=
  {| code := str "ENOENT"; message := "no such file or directory" |}.

Definition unreachable : rejection :=
  {| code := undefined; message := "could not read from remote repository" |}.

(** [path.join] on a directory with no trailing slash and a relative
    path written with a leading dot.  It also stands for [path.resolve],
    which the runs below reach only for the parent of a directory without
    a manifest, and never compare. *)
Definition join (a b : string) : string :=
  a ++ "/" ++ (if Str.startsWith "./" b then Str.drop 2 b else b).

(** Pairs of a version and a range it satisfies, as semver has them. *)
Definition satisfying : list (string * string) :=
  [ ("1.0.0", "^1.0.0"); ("1.5.0", "^1.0.0"); ("1.0.0", "1.0.0");
    ("2.0.0", "2.0.0") ].

Definition sat (v r : jstr) : bool :=
  match v, r with
  | str v, str r =>
      existsb (fun p => (fst p =? v) && (snd p =? r)) satisfying
  | _, _ => false
  end.

Definition collab (s : setting) : collaborators world := {|
  readFile := fun path w =>
    (match Obj.own (files w) path with
     | Some data => inr data
     | None => inl ENOENT
     end, w);
  JSON_parse := fun data =>
    match Obj.own (manifests s) data with
    | Some pkg => Value pkg
    | None => ParseError
    end;
  listTags := fun url w =>
    (match Obj.own (hosts s) url with
     | Some tags => inr tags
     | None => inl unreachable
     end, w);
  cloneRepo := fun tag url dst w =>
    (inr (clone_reports s),
     {| files := (join dst "./package.json", url ++ "#" ++ tag) :: files w;
        verdicts := verdicts w |});
  verifyRepo := fun _ _ _ w =>
    match verdicts w with
    | [] => (inr true, w)
    | v :: rest => (inr v, {| files := files w; verdicts := rest |})
    end;
  access := fun path w =>
    (match Obj.own (files w) path with
     | Some _ => inr tt
     | None => inl ENOENT
     end, w);
  rebuild := fun _ w => (inr tt, w);
  satisfies := sat;
  path_join := join;
  path_resolve := join
|}.

Definition leaf (v : string) : Pkg.t :=
  {| Pkg.version := str v; Pkg.dependencies := None;
     Pkg.devDependencies := None; Pkg.remotes := None |}.

Definition b_url : string := "https://h.example/org/b.git".

(** An application that wants [b] in the range [^1.0.0]. *)
Definition app : Pkg.t :=
  {| Pkg.version := str "1.0.0";
     Pkg.dependencies := Some [("b", "git+" ++ b_url ++ "#semver:^1.0.0")];
     Pkg.devDependencies := None; Pkg.remotes := None |}.

Definition tag (a : bool) (c : string) : tag_info :=
  {| annotated := a; commit := c |}.


(** The host of [b] has [v1.5.0], and a clone reports what it will. *)
Definition stocked (clone : bool) : setting :=
  {| manifests := [("app", app); ("old b", leaf "0.9.0");
                   (b_url ++ "#v1.5.0", leaf "1.5.0")];
     hosts := [(b_url, [("v0.9.0", tag true "c09"); ("v1.5.0", tag true "c15");
                        ("v2.0.0", tag false "c20")])];
     clone_reports := clone |}.

Definition fresh : world :=
  {| files := [("/app/package.json", "app")]; verdicts := [] |}.

(** [b] is already there at version 0.9.0. *)
Definition conflicting : world :=
  {| files := [("/app/package.json", "app");
               ("/app/node_modules/b/package.json", "old b")];
     verdicts := [] |}.

Definition defaults : options := {| production := false |}.

(** The remotes table of the specification's example. *)
Definition origin : Obj.t json := [("origin", JArr ["https://h.example/org"])].

End Demo.

(** ** Further vocabulary and the script runner *)

(** [pat] occurs somewhere in [s]. *)
Fixpoint occurs (pat s : string) : bool :=
  match s with
  | EmptyString => Str.startsWith pat s
  | String _ t => Str.startsWith pat s || occurs pat t
  end.

(** The hosts whose tags were listed, in the order of the calls. *)
Fixpoint asked (evs : list event) : list string :=
  match evs with
  | [] => []
  | ListTags url :: rest => url :: asked rest
  | _ :: rest => asked rest
  end.

(** What the loop over the candidate hosts throws, against the last call
    it made: the rejection of a listing or of a clone as it is, that of a
    verification wrapped with the target path. *)
Definition failure_of (dst : string) (last : event) (e : exn) : Prop :=
  match last with
  | ListTags _ => exists r, e = Rejected r
  | CloneRepo _ _ d (inl r) => d = dst /\ e = Rejected r
  | VerifyRepo _ _ d (inl r) =>
      d = dst /\
      e = Error ("Could not verify " ++ dst ++ ", reason: " ++ message r ++ ".")
  | _ => False
  end.

(** [l] is the beginning of [l']. *)
Definition begins {A} (l l' : list A) : Prop := exists rest, l' = (l ++ rest)%list.

Section Walk.

Context {W : Type}.
Variable C : collaborators W.

(** [path.join(cwd, './package.json')] and [path.resolve(cwd, '../')]. *)
Definition manifest_path (cwd : string) : string :=
  path_join C cwd "./package.json".

Definition parent (cwd : string) : string := path_resolve C cwd "../".

Fixpoint ancestor (k : nat) (cwd : string) : string :=
  match k with
  | O => cwd
  | S k' => ancestor k' (parent cwd)
  end.

(** The reads of a walk that goes [k] directories up from [cwd]. *)
Fixpoint climb (k : nat) (cwd : string) : list event :=
  ReadFile (manifest_path cwd)
  :: match k with
     | O => []
     | S k' => climb k' (parent cwd)
     end.

(** The paths the loop over the dependencies may aim at. *)
Definition target_of (root prefix : string) (entries : list (string * string))
    (dst : string) : Prop :=
  exists name, In name (map fst entries) /\
               (dst = node_modules C prefix name \/ dst = node_modules C root name).

Definition within (root prefix : string) (entries : list (string * string))
    (e : event) : Prop :=
  match e with
  | CloneRepo _ _ dst _ => target_of root prefix entries dst
  | VerifyRepo _ _ dst _ => target_of root prefix entries dst
  | _ => True
  end.

End Walk.

(** [run] (lines 157-171).  The manifest record keeps the fields the
    installer reads; [scripts] stands for the [scripts] field of the parsed
    value (absent or falsy is [None]), and [spawn] for the child process
    started with a command, its arguments and a working directory, which
    ends with an exit code ([None] for the [null] of a process ended by a
    signal) or with an error.  A manifest is a record or [null]: where the
    locator has a directory and no manifest, [pkg] is [null].  The other
    falsy documents ([false], [0] and the empty string), which [install]
    treats like [null] and on which [run] reports an unknown script, are
    not told apart from [null] here. *)
Section Run.

Context {W : Type}.
Variable C : collaborators W.
Variable scripts : Pkg.t -> option (Obj.t string).
Variable spawn : string -> list string -> string -> W
                 -> (rejection + option Z) * W.

(** The promise around the child process. *)
Definition exec (cmd : string) (args : list string) (cwd : string)
  : M W (option Z) :=
  fun w =>
    let '(r, w') := spawn cmd args cwd w in
    {| result := match r with
                 | inl err => Threw (Rejected err)
                 | inr exit => Returned exit
                 end;
       world := w'; events := [] |}.

Definition unknown_script (name : string) : exn :=
  Error ("Unknown script '" ++ name ++ "'.").

Definition run (fuel : nat) (dst name : string) : M W (option Z) :=
  loc <- locatePkg C fuel dst true ;;
  match loc with
  | NotFound | Found _ None => throw TypeError
  | Found root (Some pkg) =>
      match scripts pkg with
      | None => throw (unknown_script name)
      | Some table =>
          match Obj.get table name with
          | Obj.Missing => throw (unknown_script name)
          | Obj.Inherited => throw TypeError
          | Obj.Own line =>
              if line =? "" then throw (unknown_script name)
              else
                let '(cmd, args) := Str.split " " line in
                exec cmd args root
          end
      end
  end.

End Run.

(** ** A directory tree to walk *)

Module Tree.

(** [path.resolve(d, '../')] on the directories of the tree; the root is
    its own parent. *)
Definition up (d : string) (_ : string) : string :=
  match Obj.own [("/app/lib/util", "/app/lib"); ("/app/lib", "/app");
                 ("/app", "/")] d with
  | Some p => p
  | None => d
  end.

(** [path.join], the root directory having its slash already. *)
Definition join (a b : string) : string :=
  if a =? "/" then "/" ++ (if Str.startsWith "./" b then Str.drop 2 b else b)
  else Demo.join a b.

Definition collab : collaborators Demo.world :=
  let base := Demo.collab (Demo.stocked true) in
  {| readFile := readFile base; JSON_parse := JSON_parse base;
     listTags := listTags base; cloneRepo := cloneRepo base;
     verifyRepo := verifyRepo base; access := access base;
     rebuild := rebuild base; satisfies := satisfies base;
     path_join := join; path_resolve := up |}.

(** The scripts of the application's manifest. *)
Definition table : Obj.t string :=
  [("test", "mocha --reporter spec"); ("lint", "")].

Definition scripts (pkg : Pkg.t) : option (Obj.t string) := Some table.

(** A child process that ends with the code 0. *)
Definition spawn (cmd : string) (args : list string) (cwd : string)
    (w : Demo.world) : (rejection + option Z) * Demo.world :=
  (inr (Some 0%Z), w).

(** The application has a manifest; its [lib] has an empty one. *)
Definition disk : Demo.world :=
  {| Demo.files := [("/app/package.json", "app"); ("/app/lib/package.json", "")];
     Demo.verdicts := [] |}.

(** Three hosts for [b]: one with no tag, one with [v1.5.0], and one that
    is not reachable. *)
Definition mirrors : list string :=
  ["https://empty.example/b.git"; Demo.b_url; "https://late.example/b.git"].

Definition mirrored : Demo.setting :=
  {| Demo.manifests := [];
     Demo.hosts := [("https://empty.example/b.git", []);
                    (Demo.b_url, [("v1.5.0", Demo.tag true "c15")])];
     Demo.clone_reports := true |}.

(** [b] is there already, at version 1.5.0. *)
Definition settled : Demo.world :=
  {| Demo.files := [("/app/package.json", "app");
                    ("/app/node_modules/b/package.json",
                     Demo.b_url ++ "#v1.5.0")];
     Demo.verdicts := [] |}.

(** No manifest anywhere. *)
Definition bare : Demo.world := {| Demo.files := []; Demo.verdicts := [] |}.

(** A leaf package, and one whose dependency is a bare version. *)
Definition pinned : Pkg.t :=
  {| Pkg.version := str "1.0.0";
     Pkg.dependencies := Some [("b", "1.0.0")];
     Pkg.devDependencies := None; Pkg.remotes := None |}.

End Tree.

(** ** An application with two dependencies behind two hosts *)

Module Pair.

Definition one : string := "https://one.example/org".
Definition two : string := "https://two.example/org".

(** [a] and [b] both come from the remote [origin], which has two hosts;
    the specifier of [b] leaves the repository name out. *)
Definition app : Pkg.t :=
  {| Pkg.version := str "1.0.0";
     Pkg.dependencies := Some [("a", "origin:a#semver:^1.0.0");
                               ("b", "origin:#semver:^1.0.0")];
     Pkg.devDependencies := None;
     Pkg.remotes := Some [("origin", JArr [one; two])] |}.

(** Both hosts have [a] at [v1.0.0], the first has [b] at [v1.5.0], and
    every clone reports a failure. *)
Definition setting : Demo.setting :=
  {| Demo.manifests := [("app", app);
                        (two ++ "/a.git#v1.0.0", Demo.leaf "1.0.0");
                        (one ++ "/b.git#v1.5.0", Demo.leaf "1.5.0")];
     Demo.hosts := [(one ++ "/a.git", [("v1.0.0", Demo.tag false "a10")]);
                    (two ++ "/a.git", [("v1.0.0", Demo.tag false "a10")]);
                    (one ++ "/b.git", [("v1.5.0", Demo.tag true "b15")])];
     Demo.clone_reports := false |}.

Definition collab : collaborators Demo.world := Demo.collab setting.

(** The first verification will return [false], the later ones [true]. *)
Definition start : Demo.world :=
  {| Demo.files := [("/app/package.json", "app")]; Demo.verdicts := [false] |}.

(** The world once the first host of [a] was tried, and once the second
    was; the world at the end of the loop over the dependencies. *)
Definition tried : Demo.world :=
  {| Demo.files := [("/app/node_modules/a/package.json", one ++ "/a.git#v1.0.0");
                    ("/app/package.json", "app")];
     Demo.verdicts := [] |}.

Definition fetched : Demo.world :=
  {| Demo.files := [("/app/node_modules/a/package.json", two ++ "/a.git#v1.0.0");
                    ("/app/node_modules/a/package.json", one ++ "/a.git#v1.0.0");
                    ("/app/package.json", "app")];
     Demo.verdicts := [] |}.

Definition looped : Demo.world :=
  {| Demo.files := ("/app/node_modules/b/package.json", one ++ "/b.git#v1.5.0")
                   :: Demo.files fetched;
     Demo.verdicts := [] |}.

End Pair.

(** * Properties *)

(** ** The order of strings *)

Section StringOrder.

Lemma compare_as_OT (a b : string) :
  String.compare a b = String_as_OT.compare a b.
Proof.
  revert b; induction a as [|c a IH]; intros [|d b]; reflexivity.
Qed.

Lemma compare_refl (a : string) : String.compare a a = Eq.
Proof.
  pose proof (String.compare_antisym a a) as H.
  destruct (String.compare a a); simpl in H; congruence.
Qed.

Lemma compare_lt_trans (a b c : string) :
  String.compare a b = Lt -> String.compare b c = Lt ->
  String.compare a c = Lt.
Proof.
  rewrite !compare_as_OT.
  apply (@StrictOrder_Transitive _ _ String_as_OT.lt_strorder).
Qed.

Lemma leb_cases (a b : string) :
  (a <=? b) = true <-> String.compare a b = Lt \/ a = b.
Proof.
  unfold String.leb. split.
  - destruct (String.compare a b) eqn:E; intros H; try discriminate.
    + right. now apply String.compare_eq_iff.
    + now left.
  - intros [H | H].
    + now rewrite H.
    + subst. now rewrite compare_refl.
Qed.

Lemma leb_trans (a b c : string) :
  (a <=? b) = true -> (b <=? c) = true -> (a <=? c) = true.
Proof.
  rewrite !leb_cases. intros [H1 | H1] [H2 | H2]; subst; auto.
  left. eapply compare_lt_trans; eauto.
Qed.

Lemma ltb_false (a b : string) : (a <? b) = false <-> (b <=? a) = true.
Proof.
  unfold String.ltb, String.leb. rewrite (String.compare_antisym b a).
  destruct (String.compare a b); simpl; intuition congruence.
Qed.

(** [x] goes before [y] exactly when [y] is not above [x]. *)
Lemma compareFn_before (x y : string) :
  (compareFn x y <=? 0)%Z = true <-> (y <=? x) = true.
Proof.
  unfold compareFn. destruct (x =? y) eqn:E.
  - apply String.eqb_eq in E. subst. rewrite leb_cases. simpl. tauto.
  - destruct (x <? y) eqn:L; simpl.
    + split; [discriminate|]. intros H. apply ltb_false in H. congruence.
    + split; [|reflexivity]. intros _. now apply ltb_false.
Qed.

End StringOrder.

(** ** Sorting *)

Section Sorting.

Lemma insert_perm (x : string) (l : list string) :
  Permutation (x :: l) (insert compareFn x l).
Proof.
  induction l as [|y l IH]; simpl; auto.
  destruct (compareFn x y <=? 0)%Z; auto.
  rewrite perm_swap. now constructor.
Qed.

Lemma sort_perm (l : list string) : Permutation l (sort compareFn l).
Proof.
  induction l as [|x l IH]; simpl; auto.
  rewrite <- insert_perm. now constructor.
Qed.

Lemma insert_descending (x : string) (l : list string) :
  descending l -> descending (insert compareFn x l).
Proof.
  unfold descending. induction 1 as [|y l Hl IH Hy]; simpl.
  - repeat constructor.
  - destruct (compareFn x y <=? 0)%Z eqn:E.
    + apply compareFn_before in E.
      constructor; [now constructor|]. constructor; auto.
      rewrite Forall_forall in *. intros z Hz. eapply leb_trans; eauto.
    + constructor; auto.
      assert (Hxy : (x <=? y) = true).
      { destruct (String.leb_total x y) as [H | H]; auto.
        apply compareFn_before in H. congruence. }
      rewrite Forall_forall in *. intros z Hz.
      apply (Permutation_in _ (Permutation_sym (insert_perm x l))) in Hz.
      destruct Hz as [<- | Hz]; auto.
Qed.

Lemma sort_descending (l : list string) : descending (sort compareFn l).
Proof.
  induction l as [|x l IH]; simpl.
  - constructor.
  - now apply insert_descending.
Qed.

(** A list has one descending arrangement only, so whatever algorithm the
    engine sorts with, the result is the one computed here. *)
Lemma descending_unique (l1 l2 : list string) :
  Permutation l1 l2 -> descending l1 -> descending l2 -> l1 = l2.
Proof.
  unfold descending. revert l2.
  induction l1 as [|a l1 IH]; intros l2 P S1 S2.
  - apply Permutation_nil in P. now subst.
  - destruct l2 as [|b l2].
    + apply Permutation_sym, Permutation_nil in P. discriminate.
    + inversion S1 as [|? ? S1' F1]; inversion S2 as [|? ? S2' F2]; subst.
      assert (a = b).
      { rewrite Forall_forall in F1, F2.
        assert (Ha : In a (b :: l2)) by (eapply Permutation_in; eauto; now left).
        assert (Hb : In b (a :: l1))
          by (eapply Permutation_in; [apply Permutation_sym; eauto|now left]).
        destruct Ha as [Ha | Ha]; auto. destruct Hb as [Hb | Hb]; auto.
        apply String.leb_antisym; auto. }
      subst. f_equal. apply IH; auto. eapply Permutation_cons_inv; eauto.
Qed.

End Sorting.

(** ** The tag matcher *)

Section MatchFacts.

Variable satisfies : jstr -> jstr -> bool.

Lemma remove_first_v (tag : string) :
  Str.startsWith "v" tag = true -> Str.remove_first "v" tag = stripped tag.
Proof.
  destruct tag as [|c t]; [discriminate|].
  unfold stripped. cbn [Str.startsWith Str.remove_first Str.drop String.length].
  destruct (Ascii.eqb "v" c); simpl; [reflexivity|discriminate].
Qed.

Lemma starts_with_v_nonempty (tag : string) :
  Str.startsWith "v" tag = true -> tag <> "".
Proof. intros H ->. discriminate. Qed.

Lemma scan_first (needed : jstr) (l : list string) :
  Forall (fun tag => Str.startsWith "v" tag = true) l ->
  scan satisfies l needed = first_satisfying satisfies needed l.
Proof.
  unfold first_satisfying. induction 1 as [|tag l Hv _ IH]; simpl; auto.
  rewrite (remove_first_v _ Hv).
  destruct (satisfies (str (stripped tag)) needed); auto.
Qed.

Lemma filtered_start_with_v (tags : list string) :
  Forall (fun tag => Str.startsWith "v" tag = true)
         (sort compareFn (filter (Str.startsWith "v") tags)).
Proof.
  rewrite Forall_forall. intros tag H.
  apply (Permutation_in _ (Permutation_sym (sort_perm _))) in H.
  now apply filter_In in H.
Qed.

Lemma first_satisfying_sound (needed : jstr) (l : list string) (tag : string) :
  first_satisfying satisfies needed l = str tag ->
  In tag l /\ satisfies (str (stripped tag)) needed = true.
Proof.
  unfold first_satisfying.
  destruct (find _ l) as [t|] eqn:F; [|discriminate].
  intros [= <-]. now apply find_some in F.
Qed.

(** What [matchTag] returns when it returns a tag. *)
Lemma matchTag_str (tags : list string) (needed : jstr) (tag : string) :
  matchTag satisfies tags needed = str tag ->
  In tag tags /\ Str.startsWith "v" tag = true /\
  satisfies (str (stripped tag)) needed = true.
Proof.
  unfold matchTag. rewrite (scan_first _ (filtered_start_with_v tags)).
  intros H. apply first_satisfying_sound in H. destruct H as [Hin Hs].
  apply (Permutation_in _ (Permutation_sym (sort_perm _))) in Hin.
  apply filter_In in Hin. tauto.
Qed.

Lemma matchTag_defined (tags : list string) (needed : jstr) :
  matchTag satisfies tags needed <> undefined.
Proof.
  unfold matchTag. rewrite (scan_first _ (filtered_start_with_v tags)).
  unfold first_satisfying. destruct (find _ _); discriminate.
Qed.

(** C6.  [matchTag] keeps the tags that begin with [v], puts them in
    descending order of the strings compared character by character (so
    [v9.0.0] comes before [v10.0.0]), and returns the first of them whose
    value without the leading [v] satisfies the range, or [null] when none
    does.  The order is stated on its own: [sorted] is any descending
    arrangement of the kept tags. *)
Theorem matchTag_policy (tags sorted : list string) (needed : jstr) :
  Permutation sorted (filter (Str.startsWith "v") tags) ->
  descending sorted ->
  matchTag satisfies tags needed = first_satisfying satisfies needed sorted.
Proof.
  intros P D. unfold matchTag.
  rewrite (scan_first _ (filtered_start_with_v tags)).
  f_equal. apply descending_unique.
  - rewrite <- sort_perm. now apply Permutation_sym.
  - apply sort_descending.
  - exact D.
Qed.

(** C7.  [matchTag] returns [null] or a tag of the list it was given; the
    tag begins with [v] and its value without the leading [v] satisfies
    the range. *)
Theorem matchTag_sound (tags : list string) (needed : jstr) :
  matchTag satisfies tags needed = null \/
  exists tag, matchTag satisfies tags needed = str tag /\
              In tag tags /\ Str.startsWith "v" tag = true /\
              satisfies (str (stripped tag)) needed = true.
Proof.
  destruct (matchTag satisfies tags needed) as [| |tag] eqn:E.
  - now apply matchTag_defined in E.
  - now left.
  - right. exists tag. split; auto. now apply matchTag_str.
Qed.

End MatchFacts.

(** The policy at work: the order is that of the strings, not of the
    version numbers. *)
Lemma matchTag_policy_witness :
  matchTag (fun v _ => negb (falsy v))
    ["v2.0.0"; "1.0.0"; "v10.0.0"; "latest"; "v9.0.0"] (str "*")
  = first_satisfying (fun v _ => negb (falsy v)) (str "*")
      ["v9.0.0"; "v2.0.0"; "v10.0.0"].
Proof.
  apply matchTag_policy.
  - simpl. apply perm_trans with ["v2.0.0"; "v9.0.0"; "v10.0.0"].
    + apply perm_swap.
    + apply perm_skip. apply perm_swap.
  - repeat constructor.
Defined.

(** ** The specifier expander *)

Section ExpandFacts.

Variable path_resolve : string -> string -> string.

Lemma contains_prefix (c : ascii) (p s : string) :
  Str.startsWith p s = true -> contains c p = true -> contains c s = true.
Proof.
  revert s; induction p as [|a p IH]; intros [|b s]; simpl; try discriminate.
  intros H. apply andb_true_iff in H. destruct H as [Hab Hp].
  apply Ascii.eqb_eq in Hab. subst b.
  destruct (Ascii.eqb a c); simpl; auto.
Qed.

Lemma contains_app (c : ascii) (a b : string) :
  contains c (a ++ b) = contains c a || contains c b.
Proof.
  induction a as [|x a IH]; simpl; auto.
  rewrite IH. now rewrite orb_assoc.
Qed.



(** A string with no colon is no git URL. *)
Lemma match_git_needs_colon (src : string) :
  contains ":" src = false -> match_git src = None.
Proof.
  intros H. unfold match_git.
  destruct (Str.startsWith "git+ssh://" src) eqn:E1.
  { apply (contains_prefix ":") in E1; [congruence | reflexivity]. }
  destruct (Str.startsWith "git+https://" src) eqn:E2.
  { apply (contains_prefix ":") in E2; [congruence | reflexivity]. }
  destruct (Str.startsWith "git://" src) eqn:E3.
  { apply (contains_prefix ":") in E3; [congruence | reflexivity]. }
  reflexivity.
Qed.

Lemma split_colon_none (s : string) :
  contains ":" s = false -> Str.split_colon s = None.
Proof.
  induction s as [|c s IH]; simpl; auto.
  intros H. apply orb_false_iff in H. destruct H as [Hc Hs].
  rewrite Hc. now rewrite IH.
Qed.

Lemma split_colon_app (alias rest : string) :
  contains ":" alias = false ->
  Str.split_colon (alias ++ ":" ++ rest) = Some (alias, Str.dot_star rest).
Proof.
  induction alias as [|c a IH]; simpl; auto.
  intros H. apply orb_false_iff in H. destruct H as [Hc Ha].
  rewrite Hc. simpl in IH. now rewrite IH.
Qed.


Lemma split2_plain (c : ascii) (s : string) :
  contains c s = false -> Str.split2 c s = (s, undefined).
Proof.
  unfold Str.split2.
  assert (H : contains c s = false -> Str.split c s = (s, [])).
  { induction s as [|x s IH]; simpl; auto.
    intros K. apply orb_false_iff in K. destruct K as [Kx Ks].
    rewrite (IH Ks), Kx. reflexivity. }
  intros K. now rewrite (H K).
Qed.




(** A specifier with no colon, read against a remotes table, makes the
    expander throw a [TypeError]: the split at the first colon gives one
    piece only, and the piece after the colon, which is then split at [#],
    is [undefined]. *)
Lemma expandSrc_no_colon (root : string) (remotes : Obj.t json)
    (name src : string) :
  contains ":" src = false ->
  expandSrc path_resolve root (Some remotes) name src = Throw TypeError.
Proof.
  intros H. unfold expandSrc.
  rewrite (match_git_needs_colon _ H), (split_colon_none _ H). reflexivity.
Qed.

Lemma dot_star_single_line (s : string) :
  Str.single_line s = true -> Str.dot_star s = s.
Proof.
  induction s as [|c s IH]; simpl; auto.
  intros H. apply andb_true_iff in H. destruct H as [Hc Hs].
  apply negb_true_iff in Hc. rewrite Hc. now rewrite IH.
Qed.

Lemma findVersion_fragment (frag : string) :
  frag <> "" ->
  (snd (findVersion (str frag)) <> null /\ fst (findVersion (str frag)) = null) \/
  (snd (findVersion (str frag)) = null /\ fst (findVersion (str frag)) = str frag).
Proof.
  intros N. apply String.eqb_neq in N. unfold findVersion. simpl. rewrite N.
  simpl. destruct (Str.remove_first "semver:" frag =? frag); simpl.
  - right. auto.
  - left. split; [discriminate|reflexivity].
Qed.

(** C1, as amended.  A specifier [alias:#fragment], with the colon written
    and the repository name left out, read against a table that binds the
    alias to a list of hosts, expands to one candidate per host, in the
    order of the list, built on the name of the dependency; the fragment is
    resolved by [findVersion], to a range or to a branch. *)
Theorem expandSrc_default_repo (root : string) (table : Obj.t json)
    (name alias frag : string) (hosts : list string) :
  contains ":" alias = false ->
  match_git (alias ++ ":#" ++ frag) = None ->
  contains "#" frag = false ->
  Str.single_line frag = true ->
  Obj.own table alias = Some (JArr hosts) ->
  let r := {| git := map (candidate path_resolve root name) hosts;
              version := snd (findVersion (str frag));
              branch := fst (findVersion (str frag)) |} in
  expandSrc path_resolve root (Some table) name (alias ++ ":#" ++ frag)
  = Normal r /\
  (frag <> "" -> exactly_one r).
Proof.
  intros NC NG NH SL O r. split.
  - unfold expandSrc. rewrite NG.
    change (alias ++ ":#" ++ frag) with (alias ++ ":" ++ ("#" ++ frag)).
    rewrite (split_colon_app alias ("#" ++ frag) NC).
    assert (D : Str.dot_star ("#" ++ frag) = String "#" frag).
    { apply dot_star_single_line. simpl. now rewrite SL. }
    rewrite D. unfold Str.split2. cbn [Str.split].
    pose proof (split2_plain "#" frag NH) as P. unfold Str.split2 in P.
    destruct (Str.split "#" frag) as [h t]. destruct t; [|discriminate].
    injection P as ->. cbn [Ascii.eqb Bool.eqb String.eqb].
    destruct (findVersion (str frag)) as [b v] eqn:F.
    unfold Obj.get. rewrite O. reflexivity.
  - intros N. unfold exactly_one, r. simpl.
    destruct (findVersion_fragment N) as [[H1 H2] | [H1 H2]].
    + left. auto.
    + right. split; auto. rewrite H2. discriminate.
Qed.


End ExpandFacts.

(** C1, as stated, fails: the example of the specification has no colon,
    and the expander throws where the claim has it return. *)
Lemma expandSrc_origin_develop_throws :
  contains ":" "origin#develop" = false /\
  expandSrc Demo.join "/app" (Some Demo.origin) "foo" "origin#develop"
  = Throw TypeError /\
  expandSrc Demo.join "/app" (Some Demo.origin) "foo" "origin#develop"
  <> Normal {| git := ["https://h.example/org/foo.git"];
               version := null; branch := str "develop" |}.
Proof.
  split; [reflexivity|]. split; [reflexivity|]. discriminate.
Qed.

(** The example with its colon written. *)
Lemma expandSrc_default_repo_witness :
  expandSrc Demo.join "/app" (Some Demo.origin) "foo" "origin:#develop"
  = Normal {| git := ["https://h.example/org/foo.git"];
              version := null; branch := str "develop" |}.
Proof.
  exact (proj1 (@expandSrc_default_repo Demo.join "/app" Demo.origin "foo"
                  "origin" "develop" ["https://h.example/org"]
                  eq_refl eq_refl eq_refl eq_refl eq_refl)).
Defined.



(** ** The monad *)

Section MonadFacts.

Context {W : Type}.

Lemma bind_returned {A B} (m : M W A) (f : A -> M W B) (w : W) (a : A) :
  result (m w) = Returned a ->
  bind m f w = after (events (m w)) (f a (world (m w))).
Proof. unfold bind, after. now intros ->. Qed.

Lemma bind_threw {A B} (m : M W A) (f : A -> M W B) (w : W) (e : exn) :
  result (m w) = Threw e ->
  bind m f w = {| result := Threw e; world := world (m w); events := events (m w) |}.
Proof. unfold bind. now intros ->. Qed.

Lemma bind_pending {A B} (m : M W A) (f : A -> M W B) (w : W) :
  result (m w) = Pending ->
  bind m f w = {| result := Pending; world := world (m w); events := events (m w) |}.
Proof. unfold bind. now intros ->. Qed.

Lemma bind_ext {A B} (m : M W A) (f g : A -> M W B) (w : W) :
  (forall a w', f a w' = g a w') -> bind m f w = bind m g w.
Proof. unfold bind. intros H. destruct (result (m w)); auto. now rewrite H. Qed.

Lemma bind_assoc {A B D} (m : M W A) (f : A -> M W B) (g : B -> M W D) (w : W) :
  bind (bind m f) g w = bind m (fun a => bind (f a) g) w.
Proof.
  unfold bind. destruct (result (m w)); simpl; auto.
  destruct (result (f a (world (m w)))); simpl; auto.
  now rewrite app_assoc.
Qed.

Lemma after_after {A} (e1 e2 : list event) (o : outcome W A) :
  after e1 (after e2 o) = after (e1 ++ e2)%list o.
Proof. unfold after. simpl. now rewrite app_assoc. Qed.

End MonadFacts.

(** ** The install orchestrator *)

Section InstallFacts.

Context {W : Type}.
Variable C : collaborators W.

Lemma run_bind {A B} {m : M W A} (f : A -> M W B) {w w' : W} {a : A}
    {evs : list event} :
  m w = {| result := Returned a; world := w'; events := evs |} ->
  bind m f w = after evs (f a w').
Proof. unfold bind, after. now intros ->. Qed.

Lemma stop_bind {A B} {m : M W A} (f : A -> M W B) {w w' : W} {e : exn}
    {evs : list event} :
  m w = {| result := Threw e; world := w'; events := evs |} ->
  bind m f w = {| result := Threw e; world := w'; events := evs |}.
Proof. unfold bind. now intros ->. Qed.

Lemma await_run {A} (ev : rejection + A -> event)
    {op : W -> (rejection + A) * W} {w w' : W} {r : rejection + A} :
  op w = (r, w') ->
  await ev op w = {| result := Returned r; world := w'; events := [ev r] |}.
Proof. unfold await. now intros ->. Qed.

Lemma await_resolved {A} (ev : rejection + A -> event)
    {op : W -> (rejection + A) * W} {w w' : W} {a : A} :
  op w = (inr a, w') ->
  await_ ev op w = {| result := Returned a; world := w'; events := [ev (inr a)] |}.
Proof. unfold await_. intros H. now rewrite (run_bind _ (await_run ev H)). Qed.

Lemma await_rejected {A} (ev : rejection + A -> event)
    {op : W -> (rejection + A) * W} {w w' : W} {e : rejection} :
  op w = (inl e, w') ->
  await_ ev op w = {| result := Threw (Rejected e); world := w';
                      events := [ev (inl e)] |}.
Proof. unfold await_. intros H. now rewrite (run_bind _ (await_run ev H)). Qed.

Lemma verify_resolved {tag commit : jstr} {dst : string} {w w' : W} {v : bool} :
  verifyRepo C tag commit dst w = (inr v, w') ->
  verify C tag commit dst w
  = {| result := Returned v; world := w';
       events := [VerifyRepo tag commit dst (inr v)] |}.
Proof. unfold verify. intros H. now rewrite (run_bind _ (await_run _ H)). Qed.

Lemma verify_rejected {tag commit : jstr} {dst : string} {w w' : W}
    {e : rejection} :
  verifyRepo C tag commit dst w = (inl e, w') ->
  verify C tag commit dst w
  = {| result := Threw (Error ("Could not verify " ++ dst ++ ", reason: "
                                 ++ message e ++ "."));
       world := w'; events := [VerifyRepo tag commit dst (inl e)] |}.
Proof. unfold verify. intros H. now rewrite (run_bind _ (await_run _ H)). Qed.

Lemma verified_app (e1 e2 : list event) :
  verified (e1 ++ e2) = (verified e1 ++ verified e2)%list.
Proof.
  induction e1 as [|e e1 IH]; simpl; auto.
  destruct e as [| | |? ? ? [|[|]]| |]; simpl; auto. now rewrite IH.
Qed.

Lemma verified_in (tag commit : jstr) (dst : string) (evs : list event) :
  In (VerifyRepo tag commit dst (inr true)) evs -> In dst (verified evs).
Proof.
  induction evs as [|e evs IH]; simpl; [tauto|].
  intros [-> | H]; [now left|].
  destruct e as [| | |? ? ? [|[|]]| |]; simpl; auto.
Qed.

Lemma own_of_key {V} (o : Obj.t V) (k : string) :
  In k (Obj.keys o) -> exists v, Obj.own o k = Some v.
Proof.
  induction o as [|[k' v'] o IH]; simpl; [tauto|].
  destruct (k' =? k) eqn:E; [eauto|].
  intros [H | H]; auto. apply String.eqb_neq in E. contradiction.
Qed.

(** The tag the matcher picks is a key of the listing, and a true string. *)
Lemma matched_tag (tags : Obj.t tag_info) (version : jstr) (tag : string) :
  matchTag (satisfies C) (Obj.keys tags) version = str tag ->
  (tag =? "") = false /\ exists info, Obj.get tags tag = Obj.Own info.
Proof.
  intros H. apply matchTag_str in H. destruct H as [Hin [Hv _]]. split.
  - apply String.eqb_neq. now apply starts_with_v_nonempty.
  - apply own_of_key in Hin. destruct Hin as [info Hi]. exists info.
    unfold Obj.get. now rewrite Hi.
Qed.

Lemma try_host_runs (url : string) (version : jstr) (dst : string) (w : W) :
  host_run C url version dst w (try_host C url version dst w).
Proof.
  unfold try_host.
  destruct (listTags C url w) as [[e|tags] w1] eqn:L.
  { rewrite (stop_bind _ (await_rejected _ L)). now constructor. }
  rewrite (run_bind _ (await_resolved _ L)).
  destruct (matchTag (satisfies C) (Obj.keys tags) version) as [| |tag] eqn:T.
  { now apply matchTag_defined in T. }
  { unfold ret, after; simpl. eapply no_tag; eauto. }
  destruct (matched_tag _ _ T) as [Ne [info G]]. rewrite Ne, G.
  assert (O : Obj.own tags tag = Some info).
  { unfold Obj.get in G. destruct (Obj.own tags tag); [congruence|].
    destruct (Obj.inherited tag); discriminate. }
  destruct (cloneRepo C tag url dst w1) as [[e|c] w2] eqn:K.
  { rewrite (stop_bind _ (await_rejected _ K)).
    unfold after; simpl. eapply clone_rejected; eauto. }
  rewrite (run_bind _ (await_resolved _ K)).
  unfold after; simpl.
  destruct (annotated info) eqn:An;
    match goal with
    | |- context [verify C ?t ?k dst] =>
        destruct (verifyRepo C t k dst w2) as [[e|v] w3] eqn:R;
        [ rewrite (stop_bind _ (verify_rejected R))
        | rewrite (run_bind _ (verify_resolved R)) ]
    end; unfold ret, after; simpl;
    match type of R with
    | _ = (?r, _) =>
        generalize (@verification W C url version dst w _ _ _ _ _ _ r w3 L T O K)
    end; rewrite An; intros V; specialize (V R);
    try destruct v; exact V.
Qed.


Lemma try_host_verified (url : string) (version : jstr) (dst : string) (w : W)
    (c : control) :
  result (try_host C url version dst w) = Returned c ->
  verified (events (try_host C url version dst w))
  = match c with Break => [dst] | Continue => [] end.
Proof.
  generalize (try_host_runs url version dst w).
  generalize (try_host C url version dst w). intros o H.
  destruct H as [| | |? ? ? ? ? ? [e|[|]]]; simpl; intros [= <-]; reflexivity.
Qed.

Lemma try_host_aims (url : string) (version : jstr) (dst : string) (w : W) :
  Forall (aims_at dst) (events (try_host C url version dst w)).
Proof.
  generalize (try_host_runs url version dst w).
  generalize (try_host C url version dst w). intros o H.
  destruct H; simpl; repeat constructor.
Qed.

Lemma try_hosts_verified (git : list string) (version : jstr) (dst : string) :
  forall (w : W) (b : bool),
    result (try_hosts C git version dst w) = Returned b ->
    verified (events (try_hosts C git version dst w)) = if b then [dst] else [].
Proof.
  induction git as [|url rest IH]; intros w b; simpl.
  - intros [= <-]. reflexivity.
  - destruct (result (try_host C url version dst w)) as [c| |] eqn:R.
    + rewrite (bind_returned _ _ _ R). unfold after; simpl.
      rewrite verified_app, (try_host_verified _ _ _ _ R).
      destruct c; simpl.
      * intros H. now rewrite (IH _ _ H).
      * now intros [= <-].
    + rewrite (bind_threw _ _ _ R). discriminate.
    + rewrite (bind_pending _ _ _ R). discriminate.
Qed.

Lemma try_hosts_aims (git : list string) (version : jstr) (dst : string) :
  forall w : W, Forall (aims_at dst) (events (try_hosts C git version dst w)).
Proof.
  induction git as [|url rest IH]; intros w; simpl; [constructor|].
  pose proof (try_host_aims url version dst w) as A.
  destruct (result (try_host C url version dst w)) as [c| |] eqn:R.
  - rewrite (bind_returned _ _ _ R). unfold after; simpl.
    apply Forall_app. split; auto. destruct c; simpl; auto.
  - now rewrite (bind_threw _ _ _ R).
  - now rewrite (bind_pending _ _ _ R).
Qed.


Lemma try_host_verifies {url : string} {version : jstr} {dst : string}
    {w w1 w2 w3 : W} {tags : Obj.t tag_info} {tag : string} {info : tag_info}
    {c v : bool} :
  listTags C url w = (inr tags, w1) ->
  matchTag (satisfies C) (Obj.keys tags) version = str tag ->
  Obj.own tags tag = Some info ->
  cloneRepo C tag url dst w1 = (inr c, w2) ->
  verifyRepo C (if annotated info then str tag else null)
    (if annotated info then null else str (commit info)) dst w2 = (inr v, w3) ->
  try_host C url version dst w
  = {| result := Returned (if v then Break else Continue); world := w3;
       events := [ListTags url; CloneRepo tag url dst (inr c);
                  VerifyRepo (if annotated info then str tag else null)
                    (if annotated info then null else str (commit info))
                    dst (inr v)] |}.
Proof.
  intros L T O K R. unfold try_host.
  rewrite (run_bind _ (await_resolved _ L)), T.
  destruct (matched_tag _ _ T) as [Ne _]. rewrite Ne.
  unfold Obj.get. rewrite O.
  rewrite (run_bind _ (await_resolved _ K)).
  destruct (annotated info); rewrite (run_bind _ (verify_resolved R));
    reflexivity.
Qed.


Lemma probe_events (dst : string) (w : W) :
  events (probe C dst w) = [ReadFile (path_join C dst "./package.json")].
Proof.
  unfold probe.
  destruct (readFile C (path_join C dst "./package.json") w) as [r w1] eqn:R.
  rewrite (run_bind _ (await_run _ R)). unfold after; simpl.
  destruct r as [err|data].
  - destruct (not_ENOENT err); reflexivity.
  - unfold parse_manifest. destruct (JSON_parse C data); reflexivity.
Qed.

Lemma fetch_verified (name : string) (spec : specifier) (dst : string) (w : W)
    (r : option string) :
  result (fetch C name spec dst w) = Returned r ->
  verified (events (fetch C name spec dst w))
  = match r with Some d => [d] | None => [] end /\
  (r = None \/ r = Some dst).
Proof.
  unfold fetch. destruct (git spec) as [|url rest] eqn:G; [discriminate|].
  rewrite <- G.
  destruct (result (try_hosts C (git spec) (version spec) dst w)) as [b| |] eqn:R.
  - rewrite (bind_returned _ _ _ R). unfold after; simpl.
    rewrite app_nil_r, (try_hosts_verified _ _ _ _ R).
    intros [= <-]. destruct b; auto.
  - rewrite (bind_threw _ _ _ R). discriminate.
  - rewrite (bind_pending _ _ _ R). discriminate.
Qed.

Lemma fetch_aims (name : string) (spec : specifier) (dst : string) (w : W) :
  Forall (aims_at dst) (events (fetch C name spec dst w)).
Proof.
  unfold fetch. destruct (git spec) as [|url rest] eqn:G; [constructor|].
  rewrite <- G.
  pose proof (try_hosts_aims (git spec) (version spec) dst w) as A.
  destruct (result (try_hosts C (git spec) (version spec) dst w)) as [b| |] eqn:R.
  - rewrite (bind_returned _ _ _ R). unfold after; simpl. now rewrite app_nil_r.
  - now rewrite (bind_threw _ _ _ R).
  - now rewrite (bind_pending _ _ _ R).
Qed.

Lemma install_dep_verified (root prefix : string) (remotes : option (Obj.t json))
    (name src : string) (w : W) (r : option string) :
  result (install_dep C root prefix remotes name src w) = Returned r ->
  verified (events (install_dep C root prefix remotes name src w))
  = match r with Some d => [d] | None => [] end.
Proof.
  unfold install_dep.
  destruct (expandSrc (path_resolve C) prefix remotes name src) as [spec|e];
    [|discriminate].
  pose proof (probe_events (node_modules C prefix name) w) as PE.
  destruct (result (probe C (node_modules C prefix name) w)) as [ex| |] eqn:P.
  - rewrite (bind_returned _ _ _ P). unfold after; simpl.
    rewrite PE. simpl.
    destruct ex as [existing|].
    + destruct (satisfies C (Pkg.version existing) (version spec)).
      * now intros [= <-].
      * intros H. now apply fetch_verified in H.
    + intros H. now apply fetch_verified in H.
  - rewrite (bind_threw _ _ _ P). discriminate.
  - rewrite (bind_pending _ _ _ P). discriminate.
Qed.

(** The list the loop over the dependencies returns is the list it was
    given, followed by the paths whose verification returned [true]. *)
Lemma install_deps_verified (root prefix : string) (remotes : option (Obj.t json))
    (entries : list (string * string)) :
  forall (installed : list string) (w : W) (final : list string),
    result (install_deps C root prefix remotes entries installed w)
    = Returned final ->
    final = (installed
             ++ verified (events (install_deps C root prefix remotes entries
                                    installed w)))%list.
Proof.
  induction entries as [|[name src] rest IH]; intros installed w final; simpl.
  - intros [= <-]. now rewrite app_nil_r.
  - destruct (result (install_dep C root prefix remotes name src w))
      as [r| |] eqn:R.
    + rewrite (bind_returned _ _ _ R). unfold after; simpl.
      intros H. apply IH in H. rewrite H, verified_app.
      rewrite (install_dep_verified _ _ _ _ _ _ R).
      destruct r; simpl; auto. now rewrite <- app_assoc.
    + rewrite (bind_threw _ _ _ R). discriminate.
    + rewrite (bind_pending _ _ _ R). discriminate.
Qed.

Lemma install_deps_app (root prefix : string) (remotes : option (Obj.t json))
    (pre post : list (string * string)) :
  forall (installed : list string) (w : W),
    install_deps C root prefix remotes (pre ++ post) installed w
    = bind (install_deps C root prefix remotes pre installed)
        (fun inst => install_deps C root prefix remotes post inst) w.
Proof.
  induction pre as [|[name src] pre IH]; intros installed w; simpl.
  - unfold bind, ret; simpl. now destruct (install_deps _ _ _ _ post installed w).
  - rewrite bind_assoc. apply bind_ext. intros r w'. apply IH.
Qed.

Lemma install_dep_throws (root prefix : string) (remotes : option (Obj.t json))
    (name src : string) (e : exn) (w : W) :
  expandSrc (path_resolve C) prefix remotes name src = Throw e ->
  install_dep C root prefix remotes name src w
  = {| result := Threw e; world := w; events := [] |}.
Proof. unfold install_dep. now intros ->. Qed.

Lemma verified_witness (dst : string) (evs : list event) :
  In dst (verified evs) ->
  exists tag commit, In (VerifyRepo tag commit dst (inr true)) evs.
Proof.
  induction evs as [|e evs IH]; simpl; [tauto|].
  destruct e as [| | |tag commit d [|[|]]| |]; simpl;
    try (intros H; destruct (IH H) as [t [k Hk]]; eauto).
  intros [-> | H]; [eauto|]. destruct (IH H) as [t [k Hk]]. eauto.
Qed.


(** C3, as amended.  When the flat path holds a manifest whose version
    does not satisfy the range, the round goes on with the path under the
    current package's own [node_modules] as its target: every clone and
    every verification of that dependency aims at it, and it is the only
    path the round can record.  When the prefix of the call is the
    package's own directory, as in a call that was given no prefix, that
    path is the flat path itself. *)
Theorem conflict_installs_under_root (root prefix : string)
    (remotes : option (Obj.t json)) (name src : string) (spec : specifier)
    (existing : Pkg.t) (w w1 : W) (ev1 : list event) :
  expandSrc (path_resolve C) prefix remotes name src = Normal spec ->
  probe C (node_modules C prefix name) w
  = {| result := Returned (Some existing); world := w1; events := ev1 |} ->
  satisfies C (Pkg.version existing) (version spec) = false ->
  let nested := node_modules C root name in
  let o := install_dep C root prefix remotes name src w in
  o = after ev1 (fetch C name spec nested w1) /\
  (forall tag url dst r, In (CloneRepo tag url dst r) (events o) -> dst = nested) /\
  (forall tag commit dst r,
     In (VerifyRepo tag commit dst r) (events o) -> dst = nested) /\
  (forall dst, result o = Returned (Some dst) -> dst = nested) /\
  (prefix = root -> nested = node_modules C prefix name).
Proof.
  intros E P S nested o.
  assert (Eq : o = after ev1 (fetch C name spec nested w1)).
  { subst o. unfold install_dep. now rewrite E, (run_bind _ P), S. }
  assert (Ev1 : ev1 = [ReadFile (path_join C (node_modules C prefix name)
                                   "./package.json")]).
  { rewrite <- (probe_events (node_modules C prefix name) w). now rewrite P. }
  pose proof (fetch_aims name spec nested w1) as A.
  rewrite Forall_forall in A.
  split; [exact Eq|]. rewrite Eq. unfold after; simpl. subst ev1.
  repeat split.
  - intros tag url dst r [H | H]; [discriminate|]. exact (A _ H).
  - intros tag commit dst r [H | H]; [discriminate|]. exact (A _ H).
  - intros dst H. apply fetch_verified in H.
    destruct H as [_ [H | H]]; congruence.
  - now intros ->.
Qed.

(** C8, as amended.  Take a specifier [alias:rest] that is no git URL, read
    against a remotes table.  When the alias is neither a key of the table
    nor a member name of [Object.prototype], or is a key bound to a falsy
    entry, the expander throws the unknown-remote error, and the loop over
    the dependencies fails on that dependency with the world and the events
    of the dependencies before it: no file was read and no host was asked
    for it.  When the alias is a key bound to a truthy entry that is not an
    array, the expander throws the invalid-remotes error. *)
Theorem unknown_remote_before_io (root prefix : string) (table : Obj.t json)
    (name alias rest : string) :
  contains ":" alias = false ->
  match_git (alias ++ ":" ++ rest) = None ->
  let src := alias ++ ":" ++ rest in
  ((Obj.own table alias = None /\ Obj.inherited alias = false) \/
   (exists v, Obj.own table alias = Some v /\ truthy v = false) ->
   let e := Error ("Unknown remote " ++ alias ++ ".") in
   expandSrc (path_resolve C) prefix (Some table) name src = Throw e /\
   forall pre post installed before w w1 evs,
     install_deps C root prefix (Some table) pre installed w
     = {| result := Returned before; world := w1; events := evs |} ->
     install_deps C root prefix (Some table) (pre ++ (name, src) :: post)
       installed w
     = {| result := Threw e; world := w1; events := evs |}) /\
  (forall v, Obj.own table alias = Some v -> truthy v = true ->
             isArray v = None ->
             expandSrc (path_resolve C) prefix (Some table) name src
             = Throw (Error "Remotes expected to be an array.")).
Proof.
  intros NC NG src.
  assert (U : (Obj.own table alias = None /\ Obj.inherited alias = false) \/
              (exists v, Obj.own table alias = Some v /\ truthy v = false) ->
              expandSrc (path_resolve C) prefix (Some table) name src
              = Throw (Error ("Unknown remote " ++ alias ++ "."))).
  { intros H. unfold expandSrc, src. rewrite NG, (split_colon_app alias rest NC).
    destruct (Str.split2 "#" (Str.dot_star rest)) as [repo extra].
    destruct (findVersion extra) as [b v]. unfold Obj.get.
    destruct H as [[O I] | [x [O T]]]; rewrite O.
    - now rewrite I.
    - now rewrite T. }
  split.
  - intros H e. split; [now apply U|].
    intros pre post installed before w w1 evs P.
    rewrite install_deps_app, (run_bind _ P). simpl.
    rewrite (stop_bind _ (install_dep_throws root prefix (Some table) name src w1 (U H))).
    unfold after; simpl. now rewrite app_nil_r.
  - intros v O T A. unfold expandSrc, src. rewrite NG, (split_colon_app alias rest NC).
    destruct (Str.split2 "#" (Str.dot_star rest)) as [repo extra].
    destruct (findVersion extra) as [b x]. unfold Obj.get.
    now rewrite O, T, A.
Qed.

(** The recursive calls and the recording of the paths *)

Lemma bind_ret {A B} (a : A) (f : A -> M W B) (w : W) :
  bind (ret a) f w = f a w.
Proof. unfold bind, ret. simpl. now destruct (f a w). Qed.

Lemma bind_ext_l {A B} {m m' : M W A} (f : A -> M W B) {w : W} :
  m w = m' w -> bind m f w = bind m' f w.
Proof. unfold bind. now intros ->. Qed.

Lemma bind_after {A B} {m m' : M W A} (f : A -> M W B) {w w' : W}
    {evs : list event} :
  m w = after evs (m' w') -> bind m f w = after evs (bind m' f w').
Proof.
  unfold bind, after. intros ->. simpl.
  destruct (result (m' w')); simpl; auto. now rewrite app_assoc.
Qed.

(** The loop over [installed], followed by [k], written with the fold of
    the standard library. *)
Lemma for_each_fold {A} (f : A -> M W unit) (k : M W unit) (l : list A) :
  forall w : W,
    bind (for_each f l) (fun _ => k) w
    = fold_right (fun x then_ => _ <- f x ;; then_) k l w.
Proof.
  induction l as [|x l IH]; intros w; simpl.
  - apply bind_ret.
  - rewrite bind_assoc. apply bind_ext. intros _ w'. apply IH.
Qed.

Lemma try_hosts_app (earlier later : list string) (version : jstr)
    (dst : string) :
  forall w : W,
    try_hosts C (earlier ++ later) version dst w
    = bind (try_hosts C earlier version dst)
        (fun pushed => if pushed then ret true
                       else try_hosts C later version dst) w.
Proof.
  induction earlier as [|url earlier IH]; intros w; simpl.
  - now rewrite bind_ret.
  - rewrite bind_assoc. apply bind_ext. intros [|] w'.
    + now rewrite IH.
    + now rewrite bind_ret.
Qed.

(** The paths the loop was given stay in front of those it records. *)
Lemma install_deps_shift (root prefix : string) (remotes : option (Obj.t json))
    (entries : list (string * string)) :
  forall (installed : list string) (w : W),
    install_deps C root prefix remotes entries installed w
    = bind (install_deps C root prefix remotes entries [])
        (fun more => ret (installed ++ more)%list) w.
Proof.
  induction entries as [|[name src] rest IH]; intros installed w; simpl.
  - rewrite bind_ret. now rewrite app_nil_r.
  - rewrite bind_assoc. apply bind_ext. intros r w'.
    rewrite IH. symmetry.
    rewrite (bind_ext_l _ (IH _ w')), bind_assoc. apply bind_ext.
    intros more w''. rewrite bind_ret.
    destruct r; simpl; now rewrite <- ?app_assoc.
Qed.

(** [install] past its guards: the loop over the dependencies, then the
    calls of [install] on the recorded paths, then the native build. *)
Lemma install_enters (fuel : nat) {dst : string} (prefix : jstr)
    (opts : options) {w w0 : W} {root : string} {pkg : Pkg.t}
    {deps : Obj.t string} {ev0 : list event} :
  locatePkg C 1 dst false w
  = {| result := Returned (Found root (Some pkg)); world := w0; events := ev0 |} ->
  Pkg.dependencies pkg = Some deps ->
  let prefix' := match prefix with str p => p | _ => root end in
  let merged := match negb (production opts), Pkg.devDependencies pkg with
                | true, Some dev => merge deps dev
                | _, _ => deps
                end in
  install C (S fuel) dst prefix opts w
  = after ev0
      ((installed <- install_deps C root prefix' (Pkg.remotes pkg) merged [] ;;
        fold_right
          (fun nextDst then_ =>
             _ <- install C fuel nextDst (str prefix') {| production := false |} ;;
             then_)
          (native C root) installed) w0).
Proof.
  intros L D prefix' merged. cbn [install]. unfold install_body.
  rewrite (run_bind _ L), D. fold prefix' merged. f_equal.
  apply bind_ext. intros installed w'. apply for_each_fold.
Qed.

(** C9.  Once the loop over the dependencies has ended, [install] calls
    itself on the recorded paths, one after the other in the order they were
    recorded, which is the order in which their verifications returned
    [true]; a call begins in the world the call before it left, and a call
    that throws ends the sequence.  Each call is given the prefix of the
    present call (the prefix it was called with, or the package's own
    directory when it was given none), never the path being entered, and no
    options.  The probe for a native build of the present package
    follows. *)
Theorem install_recurses_in_order (fuel : nat) (dst : string) (prefix : jstr)
    (opts : options) (w w0 : W) (root : string) (pkg : Pkg.t)
    (deps : Obj.t string) (ev0 : list event) (installed : list string) :
  locatePkg C 1 dst false w
  = {| result := Returned (Found root (Some pkg)); world := w0; events := ev0 |} ->
  Pkg.dependencies pkg = Some deps ->
  let prefix' := match prefix with str p => p | _ => root end in
  let merged := match negb (production opts), Pkg.devDependencies pkg with
                | true, Some dev => merge deps dev
                | _, _ => deps
                end in
  let loop := install_deps C root prefix' (Pkg.remotes pkg) merged [] w0 in
  result loop = Returned installed ->
  installed = verified (events loop) /\
  install C (S fuel) dst prefix opts w
  = after (ev0 ++ events loop)
      (fold_right
         (fun nextDst then_ =>
            _ <- install C fuel nextDst (str prefix') {| production := false |} ;;
            then_)
         (native C root) installed (world loop)).
Proof.
  intros L D prefix' merged loop R. split.
  - now apply install_deps_verified in R.
  - rewrite (install_enters fuel prefix opts L D). fold prefix' merged.
    change (install_deps C root prefix' (Pkg.remotes pkg) merged []) with
      (fun w => install_deps C root prefix' (Pkg.remotes pkg) merged [] w).
    rewrite (bind_returned _ _ _ R). fold loop.
    now rewrite after_after.
Qed.

(** The round over one host of a dependency, reached after the hosts
    before it gave nothing, with a clone and a verification that both
    return. *)
Lemma host_round {earlier : list string} (later : list string) {url : string}
    {version : jstr} {dst : string} {w wh w1 w2 w3 : W} {evh : list event}
    {tags : Obj.t tag_info} {tag : string} {info : tag_info} {c v : bool} :
  try_hosts C earlier version dst w
  = {| result := Returned false; world := wh; events := evh |} ->
  listTags C url wh = (inr tags, w1) ->
  matchTag (satisfies C) (Obj.keys tags) version = str tag ->
  Obj.own tags tag = Some info ->
  cloneRepo C tag url dst w1 = (inr c, w2) ->
  verifyRepo C (if annotated info then str tag else null)
    (if annotated info then null else str (commit info)) dst w2 = (inr v, w3) ->
  try_hosts C (earlier ++ url :: later) version dst w
  = after (evh ++ [ListTags url; CloneRepo tag url dst (inr c);
                   VerifyRepo (if annotated info then str tag else null)
                     (if annotated info then null else str (commit info))
                     dst (inr v)])
      ((if v then ret true else try_hosts C later version dst) w3).
Proof.
  intros H L T O K R.
  rewrite try_hosts_app, (run_bind _ H). cbv beta iota.
  cbn [try_hosts]. rewrite (run_bind _ (try_host_verifies L T O K R)).
  rewrite after_after. now destruct v.
Qed.

Lemma fetch_hosts (name : string) {spec : specifier} (dst : string) (w : W) :
  git spec <> [] ->
  fetch C name spec dst w
  = bind (try_hosts C (git spec) (version spec) dst)
      (fun pushed => ret (if pushed then Some dst else None)) w.
Proof. unfold fetch. now destruct (git spec). Qed.

(** C10.  Take a call of [install] that has come to one host of one
    dependency: the dependencies before it are done, its flat path holds
    no manifest or one outside the range, the hosts before this one gave
    nothing, and this host's clone and verification both return.  What the
    clone returned shows in its event only.  When the verification returns
    [true] the target path is recorded after the paths recorded before, no
    further host is asked, the loop goes on with the next dependency, and
    the path is among those [install] then calls itself on.  When it returns
    [false] the next host is tried from the world the clone left, and the
    path is recorded, and entered, only if a later host pushes it; a round
    of hosts pushes a path exactly when one of its verifications returned
    [true]. *)
Theorem verification_decides_recording (fuel : nat) (dst : string)
    (prefix0 : jstr) (opts : options) (root : string) (pkg : Pkg.t)
    (deps : Obj.t string) (pre rest : list (string * string))
    (name src : string) (spec : specifier) (before : list string)
    (existing : option Pkg.t) (earlier later : list string) (url : string)
    (tags : Obj.t tag_info) (tag : string) (info : tag_info) (c v : bool)
    (w wl wp we wh w1 w2 w3 : W) (evl evp eve evh : list event) :
  locatePkg C 1 dst false w
  = {| result := Returned (Found root (Some pkg)); world := wl; events := evl |} ->
  Pkg.dependencies pkg = Some deps ->
  let prefix := match prefix0 with str p => p | _ => root end in
  let remotes := Pkg.remotes pkg in
  match negb (production opts), Pkg.devDependencies pkg with
  | true, Some dev => merge deps dev
  | _, _ => deps
  end = (pre ++ (name, src) :: rest)%list ->
  install_deps C root prefix remotes pre [] wl
  = {| result := Returned before; world := wp; events := evp |} ->
  expandSrc (path_resolve C) prefix remotes name src = Normal spec ->
  probe C (node_modules C prefix name) wp
  = {| result := Returned existing; world := we; events := eve |} ->
  (forall e, existing = Some e ->
             satisfies C (Pkg.version e) (version spec) = false) ->
  let target := match existing with
                | Some _ => node_modules C root name
                | None => node_modules C prefix name
                end in
  git spec = (earlier ++ url :: later)%list ->
  try_hosts C earlier (version spec) target we
  = {| result := Returned false; world := wh; events := evh |} ->
  listTags C url wh = (inr tags, w1) ->
  matchTag (satisfies C) (Obj.keys tags) (version spec) = str tag ->
  Obj.own tags tag = Some info ->
  cloneRepo C tag url target w1 = (inr c, w2) ->
  let by_tag := if annotated info then str tag else null in
  let by_commit := if annotated info then null else str (commit info) in
  verifyRepo C by_tag by_commit target w2 = (inr v, w3) ->
  let enter :=
    fold_right
      (fun nextDst then_ =>
         _ <- install C fuel nextDst (str prefix) {| production := false |} ;;
         then_)
      (native C root) in
  let so_far :=
    (evl ++ evp ++ eve ++ evh
     ++ [ListTags url; CloneRepo tag url target (inr c);
         VerifyRepo by_tag by_commit target (inr v)])%list in
  install C (S fuel) dst prefix0 opts w
  = after so_far
      (if v then
         (more <- install_deps C root prefix remotes rest [] ;;
          enter (before ++ target :: more)%list) w3
       else
         (pushed <- try_hosts C later (version spec) target ;;
          more <- install_deps C root prefix remotes rest [] ;;
          enter (before ++ (if pushed then target :: more else more))%list) w3) /\
  (forall pushed,
     result (try_hosts C later (version spec) target w3) = Returned pushed ->
     (pushed = true <->
      exists tag' commit',
        In (VerifyRepo tag' commit' target (inr true))
           (events (try_hosts C later (version spec) target w3)))).
Proof.
  intros L D prefix remotes Mg Pre E P U target G H Li T O K by_tag by_commit
    R enter so_far.
  split.
  - assert (Hosts := host_round later H Li T O K R).
    fold by_tag by_commit in Hosts. rewrite <- G in Hosts.
    assert (NE : git spec <> []).
    { rewrite G. now destruct earlier. }
    assert (Dep : install_dep C root prefix remotes name src wp
                  = after eve (fetch C name spec target we)).
    { unfold install_dep. rewrite E, (run_bind _ P). unfold target.
      destruct existing as [e|]; [now rewrite (U e eq_refl)|reflexivity]. }
    rewrite (fetch_hosts name target we NE), (bind_after _ Hosts),
      after_after in Dep.
    assert (Loop : install_deps C root prefix remotes
                     (pre ++ (name, src) :: rest) [] wl
                   = after evp
                       (install_deps C root prefix remotes ((name, src) :: rest)
                          before wp)).
    { now rewrite install_deps_app, (run_bind _ Pre). }
    cbn [install_deps] in Loop.
    rewrite (bind_after _ Dep), after_after in Loop.
    rewrite (install_enters fuel prefix0 opts L D).
    fold prefix remotes. rewrite Mg. fold enter.
    rewrite (bind_after _ Loop), after_after.
    unfold so_far. f_equal.
    assert (Shift : forall installed w',
               bind (install_deps C root prefix remotes rest installed)
                 (fun final => enter final) w'
               = bind (install_deps C root prefix remotes rest [])
                   (fun more => enter (installed ++ more)%list) w').
    { intros installed w'.
      rewrite (bind_ext_l _ (install_deps_shift root prefix remotes rest
                               installed w')), bind_assoc.
      apply bind_ext. intros more w''. apply bind_ret. }
    destruct v.
    + rewrite 2 bind_assoc, bind_ret, bind_ret, Shift.
      apply bind_ext. intros more w'. now rewrite <- app_assoc.
    + rewrite 2 bind_assoc. apply bind_ext. intros pushed w'.
      rewrite bind_ret, Shift. apply bind_ext. intros more w''.
      destruct pushed; [now rewrite <- app_assoc|reflexivity].
  - intros pushed Rp. pose proof (try_hosts_verified _ _ _ _ Rp) as V.
    split.
    + intros ->. apply verified_witness. rewrite V. now left.
    + intros [tag' [commit' Hin]]. apply verified_in in Hin. rewrite V in Hin.
      destruct pushed; [reflexivity|contradiction].
Qed.

End InstallFacts.

(** ** The merge of the development dependencies *)

Section MergeFacts.

Lemma own_replace_other {V} (o : Obj.t V) (k k' : string) (v : V) :
  k <> k' -> Obj.own (Obj.replace k v o) k' = Obj.own o k'.
Proof.
  intros N. induction o as [|[x y] o IH]; simpl; auto.
  destruct (x =? k) eqn:E; simpl.
  - apply String.eqb_eq in E. subst x.
    apply String.eqb_neq in N. now rewrite N.
  - destruct (x =? k'); auto.
Qed.

Lemma own_place_other {V} (n : option N) (o : Obj.t V) (k k' : string) (v : V) :
  k <> k' -> Obj.own (Obj.place n k v o) k' = Obj.own o k'.
Proof.
  intros N. apply String.eqb_neq in N.
  induction o as [|[x y] o IH]; simpl.
  - now rewrite N.
  - destruct n as [i|]; [destruct (Obj.array_index x) as [j|];
                          [destruct (i <? j)%N|]|];
      simpl; rewrite ?N, ?IH; auto.
Qed.

Lemma own_set_other {V} (o : Obj.t V) (k k' : string) (v : V) :
  k <> k' -> Obj.own (Obj.set k v o) k' = Obj.own o k'.
Proof.
  intros N. unfold Obj.set. destruct (Obj.own o k).
  - now apply own_replace_other.
  - now apply own_place_other.
Qed.

(** A direct dependency whose specifier is not the empty string keeps it
    through the merge. *)
Lemma merge_keeps_nonempty (dev deps : Obj.t string) (name src : string) :
  Obj.own deps name = Some src -> src <> "" ->
  Obj.own (merge deps dev) name = Some src.
Proof.
  intros O N. unfold merge. revert deps O.
  induction dev as [|[n s] dev IH]; intros deps O; simpl; auto.
  apply IH. destruct (absent deps n) eqn:A; auto.
  destruct (String.eqb_spec n name) as [-> | Ne].
  - unfold absent, Obj.get in A. rewrite O in A.
    apply String.eqb_eq in A. contradiction.
  - now rewrite own_set_other.
Qed.

Lemma own_replace_same {V} (o : Obj.t V) (k : string) (v x : V) :
  Obj.own o k = Some x -> Obj.own (Obj.replace k v o) k = Some v.
Proof.
  induction o as [|[k' y] o IH]; simpl; [discriminate|].
  destruct (k' =? k) eqn:E; simpl; rewrite E; auto.
Qed.

Lemma own_place_same {V} (n : option N) (o : Obj.t V) (k : string) (v : V) :
  Obj.own o k = None -> Obj.own (Obj.place n k v o) k = Some v.
Proof.
  induction o as [|[k' y] o IH]; simpl.
  - now rewrite String.eqb_refl.
  - destruct (k' =? k) eqn:E; [discriminate|]. intros H.
    destruct n as [i|]; [destruct (Obj.array_index k') as [j|];
                          [destruct (i <? j)%N|]|];
      simpl; rewrite ?String.eqb_refl, ?E; auto.
Qed.

Lemma own_set_same {V} (o : Obj.t V) (k : string) (v : V) :
  Obj.own (Obj.set k v o) k = Some v.
Proof.
  unfold Obj.set. destruct (Obj.own o k) eqn:E.
  - eapply own_replace_same; eauto.
  - now apply own_place_same.
Qed.

Lemma absent_set_other (o : Obj.t string) (k k' v : string) :
  k <> k' -> absent (Obj.set k v o) k' = absent o k'.
Proof.
  intros N. unfold absent, Obj.get. now rewrite own_set_other.
Qed.

(** What the merge can do to a name: leave its entry as it was, or give it
    the specifier of a development entry, the latter only where the name
    read as falsy. *)
Lemma merge_changes (dev deps : Obj.t string) (name : string) :
  Obj.own (merge deps dev) name = Obj.own deps name \/
  (absent deps name = true /\
   exists src, In (name, src) dev /\ Obj.own (merge deps dev) name = Some src).
Proof.
  unfold merge. revert deps.
  induction dev as [|[n s] dev IH]; intros deps; simpl; [now left|].
  destruct (String.eqb_spec n name) as [-> | Ne].
  - destruct (absent deps name) eqn:A.
    + right. split; auto.
      destruct (IH (Obj.set name s deps)) as [H | [_ [src [Hin H]]]].
      * exists s. split; auto. rewrite H. apply own_set_same.
      * exists src. auto.
    + destruct (IH deps) as [H | [B _]]; [now left | congruence].
  - destruct (absent deps n).
    + destruct (IH (Obj.set n s deps)) as [H | [B [src [Hin H]]]].
      * left. rewrite H. now apply own_set_other.
      * right. rewrite absent_set_other in B by assumption.
        split; auto. exists src. auto.
    + destruct (IH deps) as [H | [B [src [Hin H]]]]; [now left|].
      right. split; auto. exists src. auto.
Qed.

(** C5, as amended.  In the merge, a direct dependency whose specifier is
    not the empty string keeps it, whatever [devDependencies] holds; and
    the entry under a name changes only where [dependencies[name]] read as
    falsy, in which case it becomes the specifier of a development entry of
    that name. *)
Theorem merge_fills_only_gaps (deps dev : Obj.t string) (name : string) :
  (forall src, Obj.own deps name = Some src -> src <> "" ->
               Obj.own (merge deps dev) name = Some src) /\
  (Obj.own (merge deps dev) name <> Obj.own deps name ->
   absent deps name = true /\
   exists src, In (name, src) dev /\ Obj.own (merge deps dev) name = Some src).
Proof.
  split.
  - intros src O N. now apply merge_keeps_nonempty.
  - intros H. destruct (merge_changes dev deps name) as [E | R]; [contradiction|].
    exact R.
Qed.

(** The example of the specification. *)
Example merge_keeps_direct :
  merge [("a", "1.0.0")] [("a", "2.0.0"); ("b", "1.0.0")]
  = [("a", "1.0.0"); ("b", "1.0.0")].
Proof. reflexivity. Qed.

End MergeFacts.

(** C5, as stated, fails: a direct dependency whose specifier is the empty
    string is a key of [dependencies], and the development entry of the same
    name replaces its specifier. *)
Lemma merge_replaces_empty_specifier :
  Obj.own [("a", "")] "a" = Some "" /\
  merge [("a", "")] [("a", "2.0.0"); ("b", "1.0.0")]
  = [("a", "2.0.0"); ("b", "1.0.0")].
Proof. split; reflexivity. Qed.

(** The example of the specification: [a] keeps its specifier and [b] comes
    from the development entries. *)
Lemma merge_fills_only_gaps_witness :
  Obj.own (merge [("a", "1.0.0")] [("a", "2.0.0"); ("b", "1.0.0")]) "a"
  = Some "1.0.0" /\
  In ("b", "1.0.0") [("a", "2.0.0"); ("b", "1.0.0")].
Proof.
  split.
  - apply (proj1 (merge_fills_only_gaps [("a", "1.0.0")]
                    [("a", "2.0.0"); ("b", "1.0.0")] "a") "1.0.0" eq_refl).
    discriminate.
  - destruct (proj2 (merge_fills_only_gaps [("a", "1.0.0")]
                       [("a", "2.0.0"); ("b", "1.0.0")] "b"))
      as [_ [src [Hin Ho]]].
    + discriminate.
    + injection Ho as <-. exact Hin.
Defined.

(** ** The orchestrator at work *)



(** C3, as stated, fails: in a call that was given no prefix the flat path
    of [b] holds version 0.9.0, outside the range [^1.0.0], and the clone
    goes to that same flat path. *)
Lemma conflict_clones_into_flat_path :
  let C := Demo.collab (Demo.stocked true) in
  let flat := node_modules C "/app" "b" in
  let o := install C 2 "/app" undefined Demo.defaults Demo.conflicting in
  result (probe C flat Demo.conflicting) = Returned (Some (Demo.leaf "0.9.0")) /\
  satisfies C (str "0.9.0") (str "^1.0.0") = false /\
  result o = Returned tt /\
  In (CloneRepo "v1.5.0" Demo.b_url flat (inr true)) (events o).
Proof.
  repeat split; try reflexivity. vm_compute. tauto.
Qed.

Lemma conflict_installs_under_root_witness :
  let C := Demo.collab (Demo.stocked true) in
  let spec := {| git := [Demo.b_url]; version := str "^1.0.0"; branch := null |} in
  install_dep C "/app/node_modules/a" "/app" None "b"
    ("git+" ++ Demo.b_url ++ "#semver:^1.0.0") Demo.conflicting
  = after [ReadFile "/app/node_modules/b/package.json"]
      (fetch C "b" spec "/app/node_modules/a/node_modules/b" Demo.conflicting).
Proof.
  exact (proj1 (@conflict_installs_under_root _ (Demo.collab (Demo.stocked true))
                  "/app/node_modules/a" "/app" None "b"
                  ("git+" ++ Demo.b_url ++ "#semver:^1.0.0")
                  {| git := [Demo.b_url]; version := str "^1.0.0";
                     branch := null |}
                  (Demo.leaf "0.9.0") Demo.conflicting Demo.conflicting
                  [ReadFile "/app/node_modules/b/package.json"]
                  eq_refl eq_refl eq_refl)).
Defined.

(** C8, as stated, fails three ways: an alias bound to [null] is reported
    unknown, not invalid; an alias the table lacks, named like a member of
    [Object.prototype], is reported invalid, not unknown; and an alias the
    table lacks, written with no colon, raises a [TypeError]. *)
Lemma remote_errors_differ :
  (Obj.own [("origin", JNull)] "origin" = Some JNull /\
   isArray JNull = None /\
   expandSrc Demo.join "/app" (Some [("origin", JNull)]) "foo" "origin:foo"
   = Throw (Error "Unknown remote origin.") /\
   ~ InvalidRemotesError (Error "Unknown remote origin.")) /\
  (Obj.own Demo.origin "constructor" = None /\
   expandSrc Demo.join "/app" (Some Demo.origin) "foo" "constructor:foo"
   = Throw (Error "Remotes expected to be an array.") /\
   ~ UnknownRemoteError (Error "Remotes expected to be an array.")) /\
  (Obj.own Demo.origin "nosuch" = None /\
   expandSrc Demo.join "/app" (Some Demo.origin) "foo" "nosuch#develop"
   = Throw TypeError /\
   ~ UnknownRemoteError TypeError).
Proof.
  unfold InvalidRemotesError, UnknownRemoteError.
  repeat split; try reflexivity.
  - discriminate.
  - intros [remote H]. discriminate.
  - intros [remote H]. discriminate.
Qed.

Lemma unknown_remote_before_io_witness :
  let C := Demo.collab (Demo.stocked true) in
  let e := Error "Unknown remote nosuch." in
  expandSrc Demo.join "/app" (Some Demo.origin) "foo" "nosuch:foo#develop"
  = Throw e /\
  install_deps C "/app" "/app" (Some Demo.origin)
    [("b", "git+" ++ Demo.b_url ++ "#semver:^1.0.0");
     ("foo", "nosuch:foo#develop"); ("c", "origin:c")] [] Demo.fresh
  = after [ReadFile "/app/node_modules/b/package.json"; ListTags Demo.b_url;
           CloneRepo "v1.5.0" Demo.b_url "/app/node_modules/b" (inr true);
           VerifyRepo (str "v1.5.0") null "/app/node_modules/b" (inr true)]
      {| result := Threw e;
         world := {| Demo.files :=
                       [("/app/node_modules/b/package.json",
                         Demo.b_url ++ "#v1.5.0");
                        ("/app/package.json", "app")];
                     Demo.verdicts := [] |};
         events := [] |}.
Proof.
  destruct (@unknown_remote_before_io _ (Demo.collab (Demo.stocked true))
              "/app" "/app" Demo.origin "foo" "nosuch" "foo#develop"
              eq_refl eq_refl) as [U _].
  destruct (U (or_introl (conj eq_refl eq_refl))) as [E L].
  split; [exact E|].
  exact (L [("b", "git+" ++ Demo.b_url ++ "#semver:^1.0.0")] [("c", "origin:c")]
           [] ["/app/node_modules/b"] Demo.fresh _ _ eq_refl).
Defined.

(** Both dependencies are recorded, [a] from its second host and [b] from
    its first, and they are entered in that order with the prefix [/app]. *)
Lemma install_recurses_in_order_witness :
  let C := Pair.collab in
  install C 2 "/app" undefined Demo.defaults Pair.start
  = after [ReadFile "/app/package.json";
           ReadFile "/app/node_modules/a/package.json";
           ListTags (Pair.one ++ "/a.git");
           CloneRepo "v1.0.0" (Pair.one ++ "/a.git") "/app/node_modules/a"
             (inr false);
           VerifyRepo null (str "a10") "/app/node_modules/a" (inr false);
           ListTags (Pair.two ++ "/a.git");
           CloneRepo "v1.0.0" (Pair.two ++ "/a.git") "/app/node_modules/a"
             (inr false);
           VerifyRepo null (str "a10") "/app/node_modules/a" (inr true);
           ReadFile "/app/node_modules/b/package.json";
           ListTags (Pair.one ++ "/b.git");
           CloneRepo "v1.5.0" (Pair.one ++ "/b.git") "/app/node_modules/b"
             (inr false);
           VerifyRepo (str "v1.5.0") null "/app/node_modules/b" (inr true)]
      (fold_right
         (fun nextDst then_ =>
            _ <- install C 1 nextDst (str "/app") {| production := false |} ;;
            then_)
         (native C "/app") ["/app/node_modules/a"; "/app/node_modules/b"]
         Pair.looped).
Proof.
  exact (proj2 (@install_recurses_in_order _ Pair.collab 1 "/app" undefined
                  Demo.defaults Pair.start Pair.start "/app" Pair.app _
                  [ReadFile "/app/package.json"]
                  ["/app/node_modules/a"; "/app/node_modules/b"]
                  eq_refl eq_refl eq_refl)).
Defined.

(** The first host of [a]: the clone reports a failure and the verification
    returns [false], so the second host is tried.  The second host: the
    clone reports a failure and the verification returns [true], so the
    path is recorded and entered. *)
Lemma verification_decides_recording_witness :
  let C := Pair.collab in
  let target := "/app/node_modules/a" in
  let remotes := Some [("origin", JArr [Pair.one; Pair.two])] in
  let enter :=
    fold_right
      (fun nextDst then_ =>
         _ <- install C 1 nextDst (str "/app") {| production := false |} ;;
         then_)
      (native C "/app") in
  let first :=
    [ReadFile "/app/package.json"; ReadFile "/app/node_modules/a/package.json";
     ListTags (Pair.one ++ "/a.git");
     CloneRepo "v1.0.0" (Pair.one ++ "/a.git") target (inr false);
     VerifyRepo null (str "a10") target (inr false)] in
  let second :=
    [ListTags (Pair.two ++ "/a.git");
     CloneRepo "v1.0.0" (Pair.two ++ "/a.git") target (inr false);
     VerifyRepo null (str "a10") target (inr true)] in
  install C 2 "/app" undefined Demo.defaults Pair.start
  = after first
      ((pushed <- try_hosts C [Pair.two ++ "/a.git"] (str "^1.0.0") target ;;
        more <- install_deps C "/app" "/app" remotes
                  [("b", "origin:#semver:^1.0.0")] [] ;;
        enter (if pushed then target :: more else more)) Pair.tried) /\
  install C 2 "/app" undefined Demo.defaults Pair.start
  = after (first ++ second)
      ((more <- install_deps C "/app" "/app" remotes
                  [("b", "origin:#semver:^1.0.0")] [] ;;
        enter (target :: more)) Pair.fetched).
Proof.
  split.
  - refine (proj1 (@verification_decides_recording _ Pair.collab 1 "/app"
                     undefined Demo.defaults "/app" Pair.app _ []
                     [("b", "origin:#semver:^1.0.0")] "a"
                     "origin:a#semver:^1.0.0"
                     {| git := [Pair.one ++ "/a.git"; Pair.two ++ "/a.git"];
                        version := str "^1.0.0"; branch := null |}
                     [] None [] [Pair.two ++ "/a.git"] (Pair.one ++ "/a.git")
                     [("v1.0.0", Demo.tag false "a10")] "v1.0.0"
                     (Demo.tag false "a10") false false
                     Pair.start Pair.start Pair.start Pair.start Pair.start
                     Pair.start
                     {| Demo.files := Demo.files Pair.tried;
                        Demo.verdicts := [false] |}
                     Pair.tried
                     [ReadFile "/app/package.json"] []
                     [ReadFile "/app/node_modules/a/package.json"] []
                     eq_refl eq_refl eq_refl eq_refl eq_refl eq_refl _
                     eq_refl eq_refl eq_refl eq_refl eq_refl eq_refl eq_refl)).
    intros e H. discriminate H.
  - refine (proj1 (@verification_decides_recording _ Pair.collab 1 "/app"
                     undefined Demo.defaults "/app" Pair.app _ []
                     [("b", "origin:#semver:^1.0.0")] "a"
                     "origin:a#semver:^1.0.0"
                     {| git := [Pair.one ++ "/a.git"; Pair.two ++ "/a.git"];
                        version := str "^1.0.0"; branch := null |}
                     [] None [Pair.one ++ "/a.git"] [] (Pair.two ++ "/a.git")
                     [("v1.0.0", Demo.tag false "a10")] "v1.0.0"
                     (Demo.tag false "a10") false true
                     Pair.start Pair.start Pair.start Pair.start Pair.tried
                     Pair.tried Pair.fetched Pair.fetched
                     [ReadFile "/app/package.json"] []
                     [ReadFile "/app/node_modules/a/package.json"]
                     [ListTags (Pair.one ++ "/a.git");
                      CloneRepo "v1.0.0" (Pair.one ++ "/a.git")
                        "/app/node_modules/a" (inr false);
                      VerifyRepo null (str "a10") "/app/node_modules/a"
                        (inr false)]
                     eq_refl eq_refl eq_refl eq_refl eq_refl eq_refl _
                     eq_refl eq_refl eq_refl eq_refl eq_refl eq_refl eq_refl)).
    intros e H. discriminate H.
Defined.

(** * Further properties *)

(** ** The tag matcher: completeness, choice and order of the input *)

Section MatchMore.

Variable satisfies : jstr -> jstr -> bool.

Lemma matchTag_first (tags : list string) (needed : jstr) :
  matchTag satisfies tags needed
  = first_satisfying satisfies needed
      (sort compareFn (filter (Str.startsWith "v") tags)).
Proof. unfold matchTag. apply scan_first, filtered_start_with_v. Qed.

Lemma in_sorted (tags : list string) (tag : string) :
  In tag (sort compareFn (filter (Str.startsWith "v") tags)) <->
  In tag tags /\ Str.startsWith "v" tag = true.
Proof.
  rewrite <- filter_In. split; intros H.
  - eapply Permutation_in; [apply Permutation_sym, sort_perm|exact H].
  - eapply Permutation_in; [apply sort_perm|exact H].
Qed.

Lemma find_split {A} (f : A -> bool) (l : list A) (x : A) :
  find f l = Some x ->
  exists l1 l2, l = (l1 ++ x :: l2)%list /\ forall y, In y l1 -> f y = false.
Proof.
  induction l as [|a l IH]; simpl; [discriminate|].
  destruct (f a) eqn:E.
  - intros [= <-]. exists [], l. split; [reflexivity|]. intros y [].
  - intros H. destruct (IH H) as [l1 [l2 [-> K]]].
    exists (a :: l1), l2. split; [reflexivity|].
    intros y [<- | Hy]; auto.
Qed.

Lemma descending_after (l1 l2 : list string) (x y : string) :
  descending (l1 ++ x :: l2) -> In y l2 -> (y <=? x) = true.
Proof.
  unfold descending. induction l1 as [|a l1 IH]; simpl; intros S Hy.
  - inversion S as [|? ? _ F]; subst. rewrite Forall_forall in F. auto.
  - inversion S; subst. auto.
Qed.

(** The matcher answers [null] exactly when no tag that begins with [v]
    has a stripped value in the range. *)
Theorem matchTag_null_iff (tags : list string) (needed : jstr) :
  matchTag satisfies tags needed = null <->
  (forall tag, In tag tags -> Str.startsWith "v" tag = true ->
               satisfies (str (stripped tag)) needed = false).
Proof.
  rewrite matchTag_first. unfold first_satisfying.
  set (f := fun tag => satisfies (str (stripped tag)) needed).
  set (l := sort compareFn (filter (Str.startsWith "v") tags)).
  split.
  - destruct (find f l) eqn:F; [discriminate|]. intros _ tag Hin Hv.
    apply (find_none f l F). apply in_sorted. auto.
  - intros H. destruct (find f l) as [x|] eqn:F; [|reflexivity].
    apply find_some in F. destruct F as [Hin Hf].
    apply in_sorted in Hin. destruct Hin as [Hin Hv].
    unfold f in Hf. rewrite (H x Hin Hv) in Hf. discriminate.
Qed.

(** The tag the matcher returns is the greatest, in the order of the
    strings, of the tags that begin with [v] and are in the range. *)
Theorem matchTag_greatest (tags : list string) (needed : jstr)
    (best tag : string) :
  matchTag satisfies tags needed = str best ->
  In tag tags -> Str.startsWith "v" tag = true ->
  satisfies (str (stripped tag)) needed = true ->
  (tag <=? best) = true.
Proof.
  rewrite matchTag_first. unfold first_satisfying.
  set (f := fun t => satisfies (str (stripped t)) needed).
  destruct (find f _) as [x|] eqn:F; [|discriminate].
  intros [= ->] Hin Hv Hs.
  destruct (find_split _ _ F) as [l1 [l2 [E K]]].
  assert (Hl : In tag (l1 ++ best :: l2)).
  { rewrite <- E. apply in_sorted. auto. }
  apply in_app_or in Hl. destruct Hl as [H1 | [<- | H2]].
  - apply K in H1. unfold f in H1. congruence.
  - apply leb_cases. now right.
  - eapply descending_after; eauto. rewrite <- E. apply sort_descending.
Qed.

Lemma filter_perm {A} (f : A -> bool) (l l' : list A) :
  Permutation l l' -> Permutation (filter f l) (filter f l').
Proof.
  induction 1; simpl.
  - constructor.
  - destruct (f x); auto.
  - destruct (f x), (f y); auto. apply perm_swap.
  - eapply perm_trans; eauto.
Qed.

(** The matcher does not look at the order in which the tags come. *)
Theorem matchTag_any_order (tags tags' : list string) (needed : jstr) :
  Permutation tags tags' ->
  matchTag satisfies tags needed = matchTag satisfies tags' needed.
Proof.
  intros P. rewrite !matchTag_first. f_equal.
  apply descending_unique; try apply sort_descending.
  rewrite <- !sort_perm. now apply filter_perm.
Qed.

End MatchMore.

Lemma matchTag_null_iff_witness :
  matchTag Demo.sat ["v0.9.0"; "latest"; "v2.0.0"] (str "^1.0.0") = null.
Proof.
  apply (proj2 (matchTag_null_iff Demo.sat ["v0.9.0"; "latest"; "v2.0.0"]
                  (str "^1.0.0"))).
  intros tag [<- | [<- | [<- | []]]]; intros H; try discriminate; reflexivity.
Defined.

Lemma matchTag_greatest_witness :
  matchTag Demo.sat ["v1.0.0"; "v2.0.0"; "v1.5.0"] (str "^1.0.0") = str "v1.5.0" /\
  ("v1.0.0" <=? "v1.5.0") = true.
Proof.
  split; [reflexivity|].
  apply (@matchTag_greatest Demo.sat ["v1.0.0"; "v2.0.0"; "v1.5.0"]
           (str "^1.0.0") "v1.5.0" "v1.0.0").
  - reflexivity.
  - simpl. auto.
  - reflexivity.
  - reflexivity.
Defined.

Lemma matchTag_any_order_witness :
  matchTag Demo.sat ["v1.0.0"; "v1.5.0"] (str "^1.0.0")
  = matchTag Demo.sat ["v1.5.0"; "v1.0.0"] (str "^1.0.0").
Proof.
  apply matchTag_any_order. apply perm_swap.
Defined.

(** ** The specifier expander: git URLs, fragments, repository names *)

Section ExpandMore.

Variable path_resolve : string -> string -> string.

Lemma startsWith_app (p s : string) : Str.startsWith p (p ++ s) = true.
Proof.
  induction p as [|c p IH]; simpl; [now destruct s|].
  now rewrite Ascii.eqb_refl, IH.
Qed.

Lemma drop_app (p s : string) : Str.drop (String.length p) (p ++ s) = s.
Proof. induction p as [|c p IH]; simpl; auto. Qed.

Lemma single_line_app (a b : string) :
  Str.single_line (a ++ b) = Str.single_line a && Str.single_line b.
Proof.
  induction a as [|c a IH]; simpl; auto.
  rewrite IH. now rewrite andb_assoc.
Qed.

Lemma split_at_hash (a b : string) :
  contains "#" a = false -> contains "#" b = false ->
  Str.split2 "#" (a ++ "#" ++ b) = (a, str b).
Proof.
  intros Ha Hb. unfold Str.split2.
  assert (Sb : Str.split "#" b = (b, [])).
  { pose proof (split2_plain "#" b Hb) as P. unfold Str.split2 in P.
    destruct (Str.split "#" b) as [h [|x t]]; [|discriminate].
    now injection P as ->. }
  assert (S : Str.split "#" (a ++ "#" ++ b) = (a, [b])).
  { induction a as [|c a IH]; simpl.
    - now rewrite Sb.
    - simpl in Ha. apply orb_false_iff in Ha. destruct Ha as [Hc Ha].
      simpl in IH. rewrite (IH Ha), Hc. reflexivity. }
  now rewrite S.
Qed.

Lemma match_git_app (m1 rest : string) (m2 : jstr) :
  (m1 = "git+ssh://" /\ m2 = str "ssh://") \/
  (m1 = "git+https://" /\ m2 = str "https://") \/
  (m1 = "git://" /\ m2 = undefined) ->
  Str.single_line rest = true ->
  match_git (m1 ++ rest) = Some (m1, m2, rest).
Proof.
  intros [[-> ->] | [[-> ->] | [-> ->]]] SL; unfold match_git; simpl;
    rewrite SL; now destruct rest.
Qed.

(** A git URL with a fragment expands, whatever the root, the remotes table
    and the name of the dependency, to the one candidate that is the URL up
    to its [#], the [git+] taken off an ssh or https URL and a [git://] URL
    kept whole; the fragment is resolved by [findVersion]. *)
Theorem expandSrc_git_url (root : string) (remotes : option (Obj.t json))
    (name m1 out path frag : string) :
  (m1 = "git+ssh://" /\ out = "ssh://") \/
  (m1 = "git+https://" /\ out = "https://") \/
  (m1 = "git://" /\ out = "git://") ->
  Str.single_line path = true -> contains "#" path = false ->
  Str.single_line frag = true -> contains "#" frag = false ->
  expandSrc path_resolve root remotes name (m1 ++ path ++ "#" ++ frag)
  = Normal {| git := [out ++ path];
              version := snd (findVersion (str frag));
              branch := fst (findVersion (str frag)) |}.
Proof.
  intros K SP HP SF HF.
  assert (SL : Str.single_line (path ++ "#" ++ frag) = true).
  { rewrite single_line_app, SP. simpl. now rewrite SF. }
  assert (A : forall a, a ++ path ++ "#" ++ frag = (a ++ path) ++ "#" ++ frag).
  { intros a. induction a as [|c a IH]; simpl in *; congruence. }
  assert (HO : contains "#" (out ++ path) = false).
  { rewrite contains_app, HP.
    destruct K as [[_ ->] | [[_ ->] | [_ ->]]]; reflexivity. }
  pose proof (split_at_hash _ _ HO HF) as S.
  unfold expandSrc.
  destruct K as [[-> ->] | [[-> ->] | [-> ->]]].
  - rewrite (@match_git_app "git+ssh://" (path ++ "#" ++ frag) (str "ssh://")
               (or_introl (conj eq_refl eq_refl)) SL).
    change ("ssh://" =? "") with false. cbv iota.
    rewrite (A "ssh://"), S. now destruct (findVersion (str frag)).
  - rewrite (@match_git_app "git+https://" (path ++ "#" ++ frag)
               (str "https://")
               (or_intror (or_introl (conj eq_refl eq_refl))) SL).
    change ("https://" =? "") with false. cbv iota.
    rewrite (A "https://"), S. now destruct (findVersion (str frag)).
  - rewrite (@match_git_app "git://" (path ++ "#" ++ frag) undefined
               (or_intror (or_intror (conj eq_refl eq_refl))) SL).
    rewrite (A "git://"), S. now destruct (findVersion (str frag)).
Qed.

Lemma startsWith_length (p s : string) :
  Str.startsWith p s = true -> String.length p <= String.length s.
Proof.
  revert s; induction p as [|c p IH]; intros [|d s]; simpl;
    try discriminate; auto using Nat.le_0_l.
  intros H. apply andb_true_iff in H. apply le_n_S, IH, H.
Qed.

Lemma drop_length (n : nat) (s : string) :
  n <= String.length s -> String.length (Str.drop n s) + n = String.length s.
Proof.
  revert s; induction n as [|n IH]; intros [|c s]; simpl; intros H; auto.
  - inversion H.
  - rewrite <- plus_n_Sm. f_equal. apply IH. now apply le_S_n.
Qed.

Lemma remove_first_shorter (pat s : string) :
  occurs pat s = true ->
  String.length (Str.remove_first pat s) + String.length pat = String.length s.
Proof.
  induction s as [|c s IH]; simpl.
  - intros H. rewrite H. simpl. destruct pat; [reflexivity|discriminate].
  - destruct (Str.startsWith pat (String c s)) eqn:E.
    + intros _. apply drop_length. now apply startsWith_length.
    + simpl. intros H. simpl. f_equal. now apply IH.
Qed.

Lemma remove_first_absent (pat s : string) :
  occurs pat s = false -> Str.remove_first pat s = s.
Proof.
  induction s as [|c s IH]; simpl.
  - now intros ->.
  - intros H. apply orb_false_iff in H. destruct H as [E H].
    rewrite E. f_equal. now apply IH.
Qed.

(** A fragment is a range as soon as [semver:] occurs in it, at its front
    or further in: the range is the fragment with the first occurrence
    taken off.  It is a branch only when [semver:] occurs nowhere in it. *)
Theorem findVersion_semver_anywhere (fragment : string) :
  fragment <> "" ->
  (occurs "semver:" fragment = true ->
   findVersion (str fragment)
   = (null, str (Str.remove_first "semver:" fragment))) /\
  (occurs "semver:" fragment = false ->
   findVersion (str fragment) = (str fragment, null)).
Proof.
  intros N. apply String.eqb_neq in N. unfold findVersion. simpl. rewrite N.
  simpl. split; intros O.
  - destruct (Str.remove_first "semver:" fragment =? fragment) eqn:E;
      [|reflexivity].
    apply String.eqb_eq in E. pose proof (remove_first_shorter _ _ O) as L.
    rewrite E in L. simpl in L.
    rewrite <- (Nat.add_0_r (String.length fragment)) in L at 2.
    apply Nat.add_cancel_l in L. discriminate.
  - rewrite (remove_first_absent _ _ O), String.eqb_refl. reflexivity.
Qed.

(** With the repository written after the colon, the candidates are built
    on it and the name of the dependency plays no part. *)
Theorem expandSrc_named_repo (root : string) (table : Obj.t json)
    (name alias repo frag : string) (hosts : list string) :
  contains ":" alias = false ->
  match_git (alias ++ ":" ++ repo ++ "#" ++ frag) = None ->
  repo <> "" ->
  Str.single_line repo = true -> contains "#" repo = false ->
  Str.single_line frag = true -> contains "#" frag = false ->
  Obj.own table alias = Some (JArr hosts) ->
  expandSrc path_resolve root (Some table) name
    (alias ++ ":" ++ repo ++ "#" ++ frag)
  = Normal {| git := map (candidate path_resolve root repo) hosts;
              version := snd (findVersion (str frag));
              branch := fst (findVersion (str frag)) |}.
Proof.
  intros NC NG NR SR HR SF HF O. unfold expandSrc. rewrite NG.
  rewrite (split_colon_app alias (repo ++ "#" ++ frag) NC).
  assert (D : Str.dot_star (repo ++ "#" ++ frag) = repo ++ "#" ++ frag).
  { apply dot_star_single_line. rewrite single_line_app, SR. simpl.
    now rewrite SF. }
  rewrite D, (split_at_hash _ _ HR HF).
  destruct (findVersion (str frag)) as [b v].
  apply String.eqb_neq in NR. rewrite NR.
  unfold Obj.get. rewrite O. reflexivity.
Qed.

(** The root and [path.resolve] matter to the expansion only through the
    hosts that are [file:] prefixes with a relative directory. *)
Theorem expandSrc_root_only_for_relative (resolve' : string -> string -> string)
    (root root' : string) (remotes : option (Obj.t json)) (name src : string) :
  (forall table alias hosts host,
     remotes = Some table -> Obj.own table alias = Some (JArr hosts) ->
     In host hosts -> Str.startsWith "file:" host = true ->
     isAbsolute (Str.remove_first "file:" host) = true) ->
  expandSrc path_resolve root remotes name src
  = expandSrc resolve' root' remotes name src.
Proof.
  intros H. unfold expandSrc.
  destruct (match_git src) as [[[m1 m2] m3]|]; [reflexivity|].
  destruct remotes as [table|]; [|reflexivity].
  destruct (Str.split_colon src) as [[remote id]|]; [|reflexivity].
  destruct (Str.split2 "#" id) as [repo extra].
  destruct (findVersion extra) as [b v].
  unfold Obj.get. destruct (Obj.own table remote) as [hosts|] eqn:O;
    [|now destruct (Obj.inherited remote)].
  destruct (truthy hosts); simpl; [|reflexivity].
  destruct hosts as [| | | |l|]; simpl; try reflexivity.
  f_equal. f_equal. apply map_ext_in. intros host Hin. unfold candidate.
  destruct (Str.startsWith "file:" host) eqn:F; [|reflexivity].
  now rewrite (H table remote l host eq_refl O Hin F).
Qed.

End ExpandMore.

Lemma expandSrc_git_url_witness :
  expandSrc Demo.join "/app" (Some Demo.origin) "pkg"
    "git+https://example.com/pkg.git#semver:^1.2.0"
  = Normal {| git := ["https://example.com/pkg.git"];
              version := str "^1.2.0"; branch := null |}.
Proof.
  exact (@expandSrc_git_url Demo.join "/app" (Some Demo.origin) "pkg"
           "git+https://" "https://" "example.com/pkg.git" "semver:^1.2.0"
           (or_intror (or_introl (conj eq_refl eq_refl)))
           eq_refl eq_refl eq_refl eq_refl).
Defined.

Lemma findVersion_semver_anywhere_witness :
  findVersion (str "release-semver:1.x") = (null, str "release-1.x") /\
  findVersion (str "develop") = (str "develop", null).
Proof.
  split.
  - apply (proj1 (@findVersion_semver_anywhere "release-semver:1.x"
                    ltac:(discriminate))). reflexivity.
  - apply (proj2 (@findVersion_semver_anywhere "develop" ltac:(discriminate))).
    reflexivity.
Defined.

Lemma expandSrc_named_repo_witness :
  expandSrc Demo.join "/app" (Some Demo.origin) "foo" "origin:bar#develop"
  = Normal {| git := ["https://h.example/org/bar.git"];
              version := null; branch := str "develop" |}.
Proof.
  exact (@expandSrc_named_repo Demo.join "/app" Demo.origin "foo" "origin"
           "bar" "develop" ["https://h.example/org"] eq_refl eq_refl
           ltac:(discriminate) eq_refl eq_refl eq_refl eq_refl eq_refl).
Defined.

Lemma expandSrc_root_only_for_relative_witness :
  expandSrc Demo.join "/app" (Some [("local", JArr ["file:/srv/git"])]) "foo"
    "local:foo#semver:^1.0.0"
  = expandSrc Tree.up "/elsewhere" (Some [("local", JArr ["file:/srv/git"])])
      "foo" "local:foo#semver:^1.0.0".
Proof.
  apply expandSrc_root_only_for_relative.
  intros table alias hosts host E O Hin F. injection E as <-.
  cbn [Obj.own] in O. destruct ("local" =? alias); [|discriminate O].
  injection O as <-. destruct Hin as [<- | []]. reflexivity.
Defined.

(** ** The manifest locator *)

Unset Implicit Arguments.

Section WalkFacts.

Context {W : Type}.
Variable C : collaborators W.

Lemma locatePkg_step (fuel : nat) (cwd : string) (walk : bool) {w w1 : W}
    {r : rejection + string} :
  readFile C (manifest_path C cwd) w = (r, w1) ->
  locatePkg C (S fuel) cwd walk w
  = after [ReadFile (manifest_path C cwd)]
      (match r with
       | inr data =>
           if data =? "" then ret (Found cwd None)
           else pkg <- parse_manifest C data ;; ret (Found cwd pkg)
       | inl err =>
           if not_ENOENT err then throw (Rejected err)
           else if (parent C cwd =? cwd) || negb walk then ret NotFound
                else locatePkg C fuel (parent C cwd) walk
       end w1).
Proof.
  intros R. cbn [locatePkg]. fold (manifest_path C cwd).
  rewrite (run_bind _ (await_run _ R)). reflexivity.
Qed.

(** A walk reads the manifest paths of the start directory and of its
    ancestors, in that order and with no gap; the root it returns is the
    last directory it read, and it reports that nothing was found only at
    a directory that is its own parent.  Without the walk it reads one
    file. *)
Theorem locatePkg_climbs (fuel : nat) :
  forall (cwd : string) (walk : bool) (w : W) (loc : located),
    result (locatePkg C fuel cwd walk w) = Returned loc ->
    exists k,
      k < fuel /\
      events (locatePkg C fuel cwd walk w) = climb C k cwd /\
      (walk = false -> k = 0) /\
      match loc with
      | Found root _ => root = ancestor C k cwd
      | NotFound =>
          walk = true -> parent C (ancestor C k cwd) = ancestor C k cwd
      end.
Proof.
  induction fuel as [|fuel IH]; intros cwd walk w loc; [discriminate|].
  destruct (readFile C (manifest_path C cwd) w) as [r w1] eqn:R.
  rewrite (locatePkg_step fuel cwd walk R). unfold after; simpl.
  destruct r as [err|data].
  - destruct (not_ENOENT err); [discriminate|].
    destruct ((parent C cwd =? cwd) || negb walk) eqn:E.
    + simpl. intros [= <-]. exists 0. repeat split; auto using Nat.lt_0_succ.
      intros ->. simpl in E. rewrite orb_false_r in E.
      simpl. now apply String.eqb_eq.
    + apply orb_false_iff in E. destruct E as [_ E].
      apply negb_false_iff in E. subst walk.
      intros H. destruct (IH _ _ _ _ H) as [k [Hk [Ev [_ L]]]].
      exists (S k). split; [now apply -> Nat.succ_lt_mono|].
      split; [simpl; now rewrite Ev|]. split; [discriminate|exact L].
  - assert (K : forall o : outcome W located,
               (forall l, result o = Returned l -> exists p, l = Found cwd p) ->
               events o = [] ->
               result o = Returned loc ->
               exists k, k < S fuel /\
                 ReadFile (manifest_path C cwd) :: events o = climb C k cwd /\
                 (walk = false -> k = 0) /\
                 match loc with
                 | Found root _ => root = ancestor C k cwd
                 | NotFound =>
                     walk = true ->
                     parent C (ancestor C k cwd) = ancestor C k cwd
                 end).
    { intros o Ho Eo Ro. destruct (Ho _ Ro) as [p ->]. exists 0.
      rewrite Eo. repeat split; auto using Nat.lt_0_succ. }
    destruct (data =? "").
    + apply K; [|reflexivity]. intros l [= <-]. eauto.
    + unfold parse_manifest.
      destruct (JSON_parse C data); apply K; try reflexivity;
        try (intros l [= <-]; eauto); discriminate.
Qed.

(** The walk ends: with a budget of one more than the number of steps up
    to a directory that is its own parent, or with any budget when it does
    not walk, the locator returns or throws. *)
Theorem locatePkg_ends (k : nat) :
  forall (cwd : string) (walk : bool) (w : W),
    walk = false \/ parent C (ancestor C k cwd) = ancestor C k cwd ->
    result (locatePkg C (S k) cwd walk w) <> Pending.
Proof.
  induction k as [|k IH]; intros cwd walk w H;
    destruct (readFile C (manifest_path C cwd) w) as [r w1] eqn:R;
    rewrite (locatePkg_step _ cwd walk R); unfold after; simpl;
    (destruct r as [err|data];
     [ destruct (not_ENOENT err); [discriminate|];
       destruct ((parent C cwd =? cwd) || negb walk) eqn:E; [discriminate|]
     | destruct (data =? ""); [discriminate|];
       unfold parse_manifest; destruct (JSON_parse C data); discriminate ]);
    apply orb_false_iff in E; destruct E as [E1 E2];
    apply negb_false_iff in E2; subst walk;
    destruct H as [H | H]; try discriminate.
  - simpl in H. apply String.eqb_neq in E1. contradiction.
  - apply IH. right. exact H.
Qed.

End WalkFacts.

Lemma locatePkg_climbs_witness :
  exists k,
    k < 4 /\
    events (locatePkg Tree.collab 4 "/app/lib/util" true Tree.disk)
    = climb Tree.collab k "/app/lib/util" /\
    (true = false -> k = 0) /\
    "/app/lib" = ancestor Tree.collab k "/app/lib/util".
Proof.
  exact (locatePkg_climbs Tree.collab 4 "/app/lib/util" true Tree.disk
           (Found "/app/lib" None) eq_refl).
Defined.

Lemma locatePkg_ends_witness :
  result (locatePkg Tree.collab 4 "/app/lib/util" true Tree.bare) <> Pending.
Proof.
  apply (locatePkg_ends Tree.collab 3 "/app/lib/util" true Tree.bare).
  right. reflexivity.
Defined.

(** ** The orchestrator: what it reads, asks, clones and throws *)

Section InstallMore.

Context {W : Type}.
Variable C : collaborators W.

(** A package whose manifest has no [dependencies] is left at once: one
    file was read, and the native build is not even probed. *)
Theorem install_leaf (fuel : nat) (dst : string) (prefix : jstr)
    (opts : options) (w w1 : W) (data : string) (pkg : Pkg.t) :
  readFile C (manifest_path C dst) w = (inr data, w1) ->
  data <> "" ->
  JSON_parse C data = Value pkg ->
  Pkg.dependencies pkg = None ->
  install C (S fuel) dst prefix opts w
  = {| result := Returned tt; world := w1;
       events := [ReadFile (manifest_path C dst)] |}.
Proof.
  intros R N P D.
  assert (L : locatePkg C 1 dst false w
              = {| result := Returned (Found dst (Some pkg)); world := w1;
                   events := [ReadFile (manifest_path C dst)] |}).
  { rewrite (locatePkg_step C 0 dst false R).
    apply String.eqb_neq in N. rewrite N. unfold parse_manifest. now rewrite P. }
  cbn [install]. unfold install_body. rewrite (run_bind _ L), D. reflexivity.
Qed.

(** A directory with no manifest, with an empty one, or with one that
    parses to a falsy value is an unknown package: [install] throws after
    that one read, whatever the prefix and the options. *)
Theorem install_unknown_package (fuel : nat) (dst : string) (prefix : jstr)
    (opts : options) (w w1 : W) (r : rejection + string) :
  readFile C (manifest_path C dst) w = (r, w1) ->
  match r with
  | inl err => not_ENOENT err = false
  | inr data => data = "" \/ JSON_parse C data = Falsy
  end ->
  install C (S fuel) dst prefix opts w
  = {| result := Threw (Error "Unknown package."); world := w1;
       events := [ReadFile (manifest_path C dst)] |}.
Proof.
  intros R H.
  assert (L : exists loc,
             locatePkg C 1 dst false w
             = {| result := Returned loc; world := w1;
                  events := [ReadFile (manifest_path C dst)] |} /\
             (loc = NotFound \/ loc = Found dst None)).
  { rewrite (locatePkg_step C 0 dst false R). destruct r as [err|data].
    - rewrite H, orb_true_r. exists NotFound. auto.
    - exists (Found dst None). split; [|now right].
      destruct (data =? "") eqn:E; [reflexivity|].
      destruct H as [-> | H]; [discriminate|].
      unfold parse_manifest. now rewrite H. }
  destruct L as [loc [L K]]. cbn [install]. unfold install_body.
  rewrite (run_bind _ L). destruct K as [-> | ->]; reflexivity.
Qed.

(** A bare version, read with no remotes table, is a check and never a
    fetch: the dependency is passed over when the flat path holds a
    manifest whose version satisfies it, and is an error otherwise, with
    the probe of the flat path as the only call. *)
Theorem bare_version_is_a_check (root prefix name src : string) (w w1 : W)
    (existing : option Pkg.t) :
  match_git src = None ->
  result (probe C (node_modules C prefix name) w) = Returned existing ->
  world (probe C (node_modules C prefix name) w) = w1 ->
  install_dep C root prefix None name src w
  = {| result :=
         match existing with
         | Some pkg =>
             if satisfies C (Pkg.version pkg) (str src) then Returned None
             else Threw (Error ("Unknown remotes for '" ++ name ++ "'."))
         | None => Threw (Error ("Unknown remotes for '" ++ name ++ "'."))
         end;
       world := w1;
       events := [ReadFile (manifest_path C (node_modules C prefix name))] |}.
Proof.
  intros G P <-. unfold install_dep, expandSrc. rewrite G.
  rewrite (bind_returned _ _ _ P). unfold after.
  rewrite probe_events. fold (manifest_path C (node_modules C prefix name)).
  destruct existing as [pkg|]; simpl.
  - destruct (satisfies C (Pkg.version pkg) (str src)); reflexivity.
  - reflexivity.
Qed.

(** When every dependency expands and finds at its flat path a manifest
    whose version satisfies its range, the loop over the dependencies only
    reads those manifests, in the order of the entries: no host is asked,
    nothing is cloned, and the list of installed paths is as it was.  [good]
    is what is known of the worlds the reads go through. *)
Theorem satisfied_dependencies_only_read (good : W -> Prop)
    (root prefix : string) (remotes : option (Obj.t json))
    (entries : list (string * string)) :
  (forall name src w, In (name, src) entries -> good w ->
     good (world (probe C (node_modules C prefix name) w)) /\
     exists spec existing,
       expandSrc (path_resolve C) prefix remotes name src = Normal spec /\
       result (probe C (node_modules C prefix name) w)
       = Returned (Some existing) /\
       satisfies C (Pkg.version existing) (version spec) = true) ->
  forall (installed : list string) (w : W),
    good w ->
    result (install_deps C root prefix remotes entries installed w)
    = Returned installed /\
    events (install_deps C root prefix remotes entries installed w)
    = map (fun entry =>
             ReadFile (manifest_path C (node_modules C prefix (fst entry))))
        entries.
Proof.
  induction entries as [|[name src] rest IH]; intros H installed w G; simpl.
  - auto.
  - destruct (H name src w (or_introl eq_refl) G)
      as [G' [spec [existing [E [P S]]]]].
    assert (D : install_dep C root prefix remotes name src w
                = {| result := Returned None;
                     world := world (probe C (node_modules C prefix name) w);
                     events := [ReadFile (manifest_path C
                                            (node_modules C prefix name))] |}).
    { unfold install_dep. rewrite E, (bind_returned _ _ _ P). unfold after.
      rewrite probe_events, S. reflexivity. }
    rewrite (run_bind _ D). unfold after; simpl.
    destruct (IH (fun n s w' Hin => H n s w' (or_intror Hin)) installed
                (world (probe C (node_modules C prefix name) w)) G')
      as [-> ->].
    auto.
Qed.

Lemma asked_app (e1 e2 : list event) :
  asked (e1 ++ e2) = (asked e1 ++ asked e2)%list.
Proof.
  induction e1 as [|e e1 IH]; simpl; auto.
  destruct e; simpl; auto. now rewrite IH.
Qed.

Lemma try_host_asked (url : string) (version : jstr) (dst : string) (w : W) :
  asked (events (try_host C url version dst w)) = [url].
Proof.
  generalize (try_host_runs C url version dst w).
  generalize (try_host C url version dst w). intros o H.
  destruct H; reflexivity.
Qed.

Lemma try_host_break (url : string) (version : jstr) (dst : string) (w : W) :
  result (try_host C url version dst w) = Returned Break ->
  exists evs tag commit,
    events (try_host C url version dst w)
    = (evs ++ [VerifyRepo tag commit dst (inr true)])%list /\
    verified evs = [].
Proof.
  generalize (try_host_runs C url version dst w).
  generalize (try_host C url version dst w). intros o H.
  destruct H as [| | |tags w1 tag info c w2 r w3]; simpl; try discriminate.
  destruct r as [e|[|]]; try discriminate. intros _.
  exists [ListTags url; CloneRepo tag url dst (inr c)],
    (if annotated info then str tag else null),
    (if annotated info then null else str (commit info)).
  split; reflexivity.
Qed.

(** The hosts are asked for their tags in the order of the candidate list,
    each once and none skipped.  When the loop ends with nothing pushed,
    all of them were asked; when it ends with the path pushed, the
    verification that returned [true] is the last call made, and the only
    one that did. *)
Theorem hosts_asked_in_order (git : list string) (version : jstr)
    (dst : string) :
  forall w : W,
    let o := try_hosts C git version dst w in
    begins (asked (events o)) git /\
    (result o = Returned false -> asked (events o) = git) /\
    (result o = Returned true ->
     exists evs tag commit,
       events o = (evs ++ [VerifyRepo tag commit dst (inr true)])%list /\
       verified evs = []).
Proof.
  induction git as [|url rest IH]; intros w; simpl.
  - split; [now exists []|]. split; [reflexivity|discriminate].
  - pose proof (try_host_asked url version dst w) as A.
    destruct (result (try_host C url version dst w)) as [c| |] eqn:R.
    + rewrite (bind_returned _ _ _ R). unfold after; simpl.
      rewrite asked_app, A. destruct c; simpl.
      * destruct (IH (world (try_host C url version dst w)))
          as [[tl B] [F T]].
        split; [exists tl; simpl; f_equal; exact B|]. split.
        -- intros H. now rewrite (F H).
        -- intros H. destruct (T H) as [evs [tag [commit [E V]]]].
           exists (events (try_host C url version dst w) ++ evs)%list,
             tag, commit.
           split; [now rewrite E, app_assoc|].
           rewrite verified_app, V, (try_host_verified C _ _ _ _ R).
           reflexivity.
      * split; [now exists rest|]. split; [discriminate|]. intros _.
        rewrite app_nil_r. now apply try_host_break.
    + rewrite (bind_threw _ _ _ R). simpl. rewrite A.
      split; [now exists rest|]. split; discriminate.
    + rewrite (bind_pending _ _ _ R). simpl. rewrite A.
      split; [now exists rest|]. split; discriminate.
Qed.

Lemma try_host_failure (url : string) (version : jstr) (dst : string) (w : W) :
  let o := try_host C url version dst w in
  result o <> Pending /\
  forall e, result o = Threw e ->
            exists evs last, events o = (evs ++ [last])%list /\
                             failure_of dst last e.
Proof.
  generalize (try_host_runs C url version dst w).
  generalize (try_host C url version dst w). intros o H. simpl.
  destruct H as [e0 w1|tags w1|tags w1 tag e0 w2|tags w1 tag info c w2 r w3];
    simpl.
  - split; [discriminate|]. intros e [= <-].
    exists [], (ListTags url). simpl. eauto.
  - split; discriminate.
  - split; [discriminate|]. intros e [= <-].
    exists [ListTags url], (CloneRepo tag url dst (inl e0)). simpl. auto.
  - destruct r as [e0|[|]]; (split; [discriminate|]); try discriminate.
    intros e [= <-].
    exists [ListTags url; CloneRepo tag url dst (inr c)],
      (VerifyRepo (if annotated info then str tag else null)
         (if annotated info then null else str (commit info)) dst (inl e0)).
    simpl. auto.
Qed.

(** The loop over the candidate hosts throws on the first call that is
    rejected and on nothing else: the rejection of a listing or of a clone
    goes up as it is, with no further host tried, and the rejection of a
    verification goes up wrapped in an error that names the target path
    and the reason.  The rejected call is the last one made. *)
Theorem hosts_failure (git : list string) (version : jstr) (dst : string) :
  forall w : W,
    let o := try_hosts C git version dst w in
    result o <> Pending /\
    forall e, result o = Threw e ->
              exists evs last, events o = (evs ++ [last])%list /\
                               failure_of dst last e.
Proof.
  induction git as [|url rest IH]; intros w; simpl.
  - split; discriminate.
  - destruct (try_host_failure url version dst w) as [NP F].
    destruct (result (try_host C url version dst w)) as [c| |] eqn:R.
    + rewrite (bind_returned _ _ _ R). unfold after; simpl.
      destruct c; simpl; [|split; discriminate].
      destruct (IH (world (try_host C url version dst w))) as [NP' F'].
      split; [exact NP'|]. intros e H.
      destruct (F' e H) as [evs [last [E L]]].
      exists (events (try_host C url version dst w) ++ evs)%list, last.
      split; [now rewrite E, app_assoc|exact L].
    + rewrite (bind_threw _ _ _ R). simpl. split; [discriminate|].
      intros e' [= <-]. now apply F.
    + contradiction.
Qed.

Lemma install_dep_within (root prefix : string) (remotes : option (Obj.t json))
    (name src : string) (w : W) :
  Forall (within C root prefix [(name, src)])
    (events (install_dep C root prefix remotes name src w)).
Proof.
  assert (A : forall spec dst w',
             dst = node_modules C prefix name \/ dst = node_modules C root name ->
             Forall (within C root prefix [(name, src)])
               (events (fetch C name spec dst w'))).
  { intros spec dst w' Hd.
    eapply Forall_impl; [|apply (fetch_aims C name spec dst w')].
    intros e He. destruct e; simpl in *; auto; subst;
      exists name; simpl; auto. }
  unfold install_dep.
  destruct (expandSrc (path_resolve C) prefix remotes name src) as [spec|e];
    [|constructor].
  pose proof (probe_events C (node_modules C prefix name) w) as PE.
  destruct (result (probe C (node_modules C prefix name) w)) as [ex| |] eqn:P.
  - rewrite (bind_returned _ _ _ P). unfold after; simpl. rewrite PE.
    constructor; [exact I|]. destruct ex as [existing|].
    + destruct (satisfies C (Pkg.version existing) (version spec)).
      * constructor.
      * apply A. now right.
    + apply A. now left.
  - rewrite (bind_threw _ _ _ P). simpl. rewrite PE. repeat constructor.
  - rewrite (bind_pending _ _ _ P). simpl. rewrite PE. repeat constructor.
Qed.

Lemma within_more (root prefix : string) (l l' : list (string * string))
    (e : event) :
  (forall name, In name (map fst l) -> In name (map fst l')) ->
  within C root prefix l e -> within C root prefix l' e.
Proof.
  intros S. destruct e; simpl; auto;
    intros [name [Hin Hd]]; exists name; auto.
Qed.

(** Whatever the hosts answer, the loop over the dependencies clones and
    verifies only at the path of a listed dependency under the
    [node_modules] of the prefix or of the package itself, and the paths it
    adds to the installed ones are among those. *)
Theorem install_deps_within (root prefix : string)
    (remotes : option (Obj.t json)) (entries : list (string * string)) :
  forall (installed : list string) (w : W),
    let o := install_deps C root prefix remotes entries installed w in
    Forall (within C root prefix entries) (events o) /\
    forall final dst,
      result o = Returned final -> In dst final ->
      In dst installed \/ target_of C root prefix entries dst.
Proof.
  assert (E : forall installed w,
             Forall (within C root prefix entries)
               (events (install_deps C root prefix remotes entries
                          installed w))).
  { induction entries as [|[name src] rest IH]; intros installed w; simpl;
      [constructor|].
    pose proof (install_dep_within root prefix remotes name src w) as D.
    assert (D' : Forall (within C root prefix ((name, src) :: rest))
                   (events (install_dep C root prefix remotes name src w))).
    { eapply Forall_impl; [|exact D]. intros e.
      apply within_more. simpl. tauto. }
    destruct (result (install_dep C root prefix remotes name src w))
      as [r| |] eqn:R.
    - rewrite (bind_returned _ _ _ R). unfold after; simpl.
      apply Forall_app. split; [exact D'|].
      eapply Forall_impl; [|apply IH]. intros e.
      apply within_more. simpl. tauto.
    - now rewrite (bind_threw _ _ _ R).
    - now rewrite (bind_pending _ _ _ R). }
  intros installed w o. split; [apply E|].
  intros final dst R Hin. subst o.
  rewrite (install_deps_verified C _ _ _ _ _ _ R) in Hin.
  apply in_app_or in Hin. destruct Hin as [Hin | Hin]; [now left|right].
  apply verified_witness in Hin. destruct Hin as [tag [commit Hin]].
  specialize (E installed w). rewrite Forall_forall in E.
  exact (E _ Hin).
Qed.

End InstallMore.

Lemma install_leaf_witness :
  install (Demo.collab (Demo.stocked true)) 1 "/app/node_modules/b" (str "/app")
    Demo.defaults Demo.conflicting
  = {| result := Returned tt; world := Demo.conflicting;
       events := [ReadFile "/app/node_modules/b/package.json"] |}.
Proof.
  exact (install_leaf (Demo.collab (Demo.stocked true)) 0 "/app/node_modules/b"
           (str "/app") Demo.defaults Demo.conflicting Demo.conflicting
           "old b" (Demo.leaf "0.9.0") eq_refl ltac:(discriminate)
           eq_refl eq_refl).
Defined.

Lemma install_unknown_package_witness :
  install (Demo.collab (Demo.stocked true)) 1 "/nowhere" undefined
    Demo.defaults Demo.fresh
  = {| result := Threw (Error "Unknown package."); world := Demo.fresh;
       events := [ReadFile "/nowhere/package.json"] |}.
Proof.
  exact (install_unknown_package (Demo.collab (Demo.stocked true)) 0 "/nowhere"
           undefined Demo.defaults Demo.fresh Demo.fresh (inl Demo.ENOENT)
           eq_refl eq_refl).
Defined.

Lemma bare_version_is_a_check_witness :
  install_dep (Demo.collab (Demo.stocked true)) "/app" "/app" None "b" "1.0.0"
    Demo.conflicting
  = {| result := Threw (Error "Unknown remotes for 'b'.");
       world := Demo.conflicting;
       events := [ReadFile "/app/node_modules/b/package.json"] |}.
Proof.
  exact (bare_version_is_a_check (Demo.collab (Demo.stocked true)) "/app" "/app"
           "b" "1.0.0" Demo.conflicting Demo.conflicting
           (Some (Demo.leaf "0.9.0")) eq_refl eq_refl eq_refl).
Defined.

Lemma satisfied_dependencies_only_read_witness :
  let C := Demo.collab (Demo.stocked true) in
  let o := install_deps C "/app" "/app" None
             [("b", "git+" ++ Demo.b_url ++ "#semver:^1.0.0")] [] Tree.settled in
  result o = Returned [] /\
  events o = [ReadFile "/app/node_modules/b/package.json"].
Proof.
  apply (satisfied_dependencies_only_read (Demo.collab (Demo.stocked true))
           (fun w => w = Tree.settled) "/app" "/app" None
           [("b", "git+" ++ Demo.b_url ++ "#semver:^1.0.0")]);
    [|reflexivity].
  intros name src w [E | []] ->. injection E as <- <-.
  split; [reflexivity|].
  exists {| git := [Demo.b_url]; version := str "^1.0.0"; branch := null |},
    (Demo.leaf "1.5.0").
  repeat split.
Defined.

Lemma hosts_asked_in_order_witness :
  exists evs tag commit,
    events (try_hosts (Demo.collab Tree.mirrored) Tree.mirrors (str "^1.0.0")
              "/app/node_modules/b" Demo.fresh)
    = (evs ++ [VerifyRepo tag commit "/app/node_modules/b" (inr true)])%list /\
    verified evs = [].
Proof.
  exact (proj2 (proj2 (hosts_asked_in_order (Demo.collab Tree.mirrored)
                         Tree.mirrors (str "^1.0.0") "/app/node_modules/b"
                         Demo.fresh))
           eq_refl).
Defined.

(** The last host comes first: its listing is rejected and the loop throws
    with the other hosts not asked. *)
Lemma hosts_failure_witness :
  exists evs last,
    events (try_hosts (Demo.collab Tree.mirrored) (rev Tree.mirrors)
              (str "^1.0.0") "/app/node_modules/b" Demo.fresh)
    = (evs ++ [last])%list /\
    failure_of "/app/node_modules/b" last (Rejected Demo.unreachable).
Proof.
  exact (proj2 (hosts_failure (Demo.collab Tree.mirrored) (rev Tree.mirrors)
                  (str "^1.0.0") "/app/node_modules/b" Demo.fresh)
           (Rejected Demo.unreachable) eq_refl).
Defined.

Lemma install_deps_within_witness :
  In "/app/node_modules/b" [] \/
  target_of (Demo.collab (Demo.stocked true)) "/app" "/app"
    [("b", "git+" ++ Demo.b_url ++ "#semver:^1.0.0")] "/app/node_modules/b".
Proof.
  apply (proj2 (install_deps_within (Demo.collab (Demo.stocked true)) "/app"
                  "/app" None [("b", "git+" ++ Demo.b_url ++ "#semver:^1.0.0")]
                  [] Demo.fresh) ["/app/node_modules/b"]).
  - reflexivity.
  - now left.
Defined.

(** ** The merge: which names it holds, and merging twice *)

Section MergeMore.

Lemma absent_after_set (deps : Obj.t string) (name src : string) :
  src <> "" -> absent (Obj.set name src deps) name = false.
Proof.
  intros N. unfold absent, Obj.get. rewrite own_set_same.
  now apply String.eqb_neq.
Qed.

Lemma merge_step_keeps_present (deps : Obj.t string) (n s name : string) :
  absent deps name = false ->
  absent (if absent deps n then Obj.set n s deps else deps) name = false.
Proof.
  intros A. destruct (absent deps n) eqn:B; [|exact A].
  destruct (String.eqb_spec n name) as [-> | Ne]; [congruence|].
  now rewrite absent_set_other.
Qed.

Lemma merge_keeps_present (dev deps : Obj.t string) (name : string) :
  absent deps name = false -> absent (merge deps dev) name = false.
Proof.
  unfold merge. revert deps.
  induction dev as [|[n s] dev IH]; intros deps A; simpl; auto.
  apply IH. now apply merge_step_keeps_present.
Qed.

Lemma merge_brings_dev (dev deps : Obj.t string) (name src : string) :
  In (name, src) dev -> src <> "" -> absent (merge deps dev) name = false.
Proof.
  intros Hin N. revert deps.
  induction dev as [|[n s] dev IH]; intros deps; [destruct Hin|].
  destruct Hin as [E | Hin].
  - injection E as -> ->.
    change (merge deps ((name, src) :: dev)) with
      (merge (if absent deps name then Obj.set name src deps else deps) dev).
    apply merge_keeps_present.
    destruct (absent deps name) eqn:A; [now apply absent_after_set|exact A].
  - apply (IH Hin).
Qed.

(** Once merged, a second merge of the same development dependencies
    changes nothing, their specifiers being non-empty. *)
Theorem merge_twice (deps dev : Obj.t string) :
  (forall name src, In (name, src) dev -> src <> "") ->
  merge (merge deps dev) dev = merge deps dev.
Proof.
  intros H.
  assert (K : forall l m,
             (forall name src, In (name, src) l -> absent m name = false) ->
             merge m l = m).
  { induction l as [|[n s] l IH]; intros m A; [reflexivity|].
    change (merge m ((n, s) :: l)) with
      (merge (if absent m n then Obj.set n s m else m) l).
    rewrite (A n s (or_introl eq_refl)). apply IH.
    intros name src Hin. apply (A name src). now right. }
  apply K. intros name src Hin.
  apply (merge_brings_dev dev deps name src Hin). exact (H name src Hin).
Qed.

Lemma merge_step_names (deps : Obj.t string) (n s k : string) :
  Obj.own (if absent deps n then Obj.set n s deps else deps) k <> None <->
  Obj.own deps k <> None \/ (k = n /\ Obj.inherited k = false).
Proof.
  destruct (String.eqb_spec n k) as [<- | Ne].
  - unfold absent, Obj.get.
    destruct (Obj.own deps n) as [v|] eqn:O.
    + destruct (v =? ""); [rewrite own_set_same|rewrite O];
        split; intros _; try (left; discriminate); discriminate.
    + destruct (Obj.inherited n) eqn:I.
      * rewrite O. split; [tauto|]. intros [K | [_ K]]; [tauto|discriminate].
      * rewrite own_set_same. split; [auto|discriminate].
  - assert (E : Obj.own (if absent deps n then Obj.set n s deps else deps) k
                = Obj.own deps k).
    { destruct (absent deps n); [now apply own_set_other|reflexivity]. }
    rewrite E. split; [auto|]. intros [K | [K _]]; [exact K|].
    symmetry in K. contradiction.
Qed.

(** The names of the merged dependencies are those of [dependencies] and,
    of those of [devDependencies], the ones that are not names of members
    of [Object.prototype]: a development dependency called [constructor] or
    [toString] is never merged. *)
Theorem merge_names (dev deps : Obj.t string) (k : string) :
  Obj.own (merge deps dev) k <> None <->
  Obj.own deps k <> None \/
  (In k (map fst dev) /\ Obj.inherited k = false).
Proof.
  revert deps. induction dev as [|[n s] dev IH]; intros deps.
  - simpl. tauto.
  - change (merge deps ((n, s) :: dev)) with
      (merge (if absent deps n then Obj.set n s deps else deps) dev).
    rewrite IH, merge_step_names. simpl. split.
    + intros [[H | [-> H]] | [H1 H2]]; auto.
    + intros [H | [[<- | H1] H2]]; auto.
Qed.

End MergeMore.

Lemma merge_twice_witness :
  merge (merge [("a", "1.0.0")] [("a", "2.0.0"); ("b", "1.0.0")])
    [("a", "2.0.0"); ("b", "1.0.0")]
  = merge [("a", "1.0.0")] [("a", "2.0.0"); ("b", "1.0.0")].
Proof.
  apply merge_twice.
  intros name src [E | [E | []]]; injection E as <- <-; discriminate.
Defined.

Lemma merge_names_witness :
  Obj.own (merge [("a", "1.0.0")] [("toString", "1.0.0"); ("b", "1.0.0")])
    "b" <> None /\
  ~ Obj.own (merge [("a", "1.0.0")] [("toString", "1.0.0"); ("b", "1.0.0")])
      "toString" <> None.
Proof.
  split.
  - apply (proj2 (merge_names [("toString", "1.0.0"); ("b", "1.0.0")]
                    [("a", "1.0.0")] "b")).
    right. split; [simpl; auto|reflexivity].
  - intros H.
    apply (proj1 (merge_names [("toString", "1.0.0"); ("b", "1.0.0")]
                    [("a", "1.0.0")] "toString")) in H.
    destruct H as [H | [_ H]]; [now apply H|discriminate H].
Defined.

(** ** The script runner *)

Section RunFacts.

Context {W : Type}.
Variable C : collaborators W.
Variable scripts : Pkg.t -> option (Obj.t string).
Variable spawn : string -> list string -> string -> W
                 -> (rejection + option Z) * W.


(** Where the walk finds no manifest to parse (the start directory has an
    empty manifest, or has none and is its own parent), [run] throws a
    [TypeError] on reading [scripts]. *)
Theorem run_without_manifest (fuel : nat) (dst name : string) (w w1 : W)
    (r : rejection + string) :
  readFile C (manifest_path C dst) w = (r, w1) ->
  match r with
  | inl err => not_ENOENT err = false /\ parent C dst = dst
  | inr data => data = ""
  end ->
  run C scripts spawn (S fuel) dst name w
  = {| result := Threw TypeError; world := w1;
       events := [ReadFile (manifest_path C dst)] |}.
Proof.
  intros R H.
  assert (L : exists loc,
             locatePkg C (S fuel) dst true w
             = {| result := Returned loc; world := w1;
                  events := [ReadFile (manifest_path C dst)] |} /\
             (loc = NotFound \/ loc = Found dst None)).
  { rewrite (locatePkg_step C fuel dst true R). destruct r as [err|data].
    - destruct H as [H1 H2]. rewrite H1, H2, String.eqb_refl.
      exists NotFound. auto.
    - exists (Found dst None). split; [|now right]. now rewrite H. }
  destruct L as [loc [L K]]. unfold run.
  rewrite (run_bind _ L). destruct K as [-> | ->]; reflexivity.
Qed.

(** A script that the manifest does not have, or has as the empty string,
    is unknown: [run] throws with nothing done but the reads of the walk,
    and no process is started. *)
Theorem run_unknown_script (fuel : nat) (dst name root : string) (w w1 : W)
    (pkg : Pkg.t) (evs : list event) :
  locatePkg C fuel dst true w
  = {| result := Returned (Found root (Some pkg)); world := w1;
       events := evs |} ->
  scripts pkg = None \/
  (exists table,
     scripts pkg = Some table /\
     ((Obj.own table name = None /\ Obj.inherited name = false) \/
      Obj.own table name = Some "")) ->
  run C scripts spawn fuel dst name w
  = {| result := Threw (Error ("Unknown script '" ++ name ++ "'."));
       world := w1; events := evs |}.
Proof.
  intros L H. unfold run. rewrite (run_bind _ L). unfold after.
  destruct H as [-> | [table [-> H]]].
  - simpl. now rewrite app_nil_r.
  - unfold Obj.get. destruct H as [[-> ->] | ->]; simpl;
      now rewrite app_nil_r.
Qed.


End RunFacts.

Lemma run_without_manifest_witness :
  run Tree.collab Tree.scripts Tree.spawn 4 "/app/lib" "test" Tree.disk
  = {| result := Threw TypeError; world := Tree.disk;
       events := [ReadFile "/app/lib/package.json"] |}.
Proof.
  exact (run_without_manifest Tree.collab Tree.scripts Tree.spawn 3 "/app/lib"
           "test" Tree.disk Tree.disk (inr "") eq_refl eq_refl).
Defined.

Lemma run_unknown_script_witness :
  run Tree.collab Tree.scripts Tree.spawn 4 "/app/lib/util" "build" Demo.fresh
  = {| result := Threw (Error "Unknown script 'build'."); world := Demo.fresh;
       events := climb Tree.collab 2 "/app/lib/util" |}.
Proof.
  apply (run_unknown_script Tree.collab Tree.scripts Tree.spawn 4
           "/app/lib/util" "build" "/app" Demo.fresh Demo.fresh Demo.app).
  - reflexivity.
  - right. eexists. split; [reflexivity|]. left. split; reflexivity.
Defined.

